(** * containerd release-tool: dependency diff and changelog extraction

    A shallow embedding of [util.go] (package [main] of the release
    tool) together with the parts of the Go standard library it calls
    ([unicode/utf8], [unicode], [strings], [bufio], [regexp], [sort]).

    Go strings are byte sequences: they are modelled as [string], whose
    characters are the 256 values of [ascii].  Runes and byte values are
    numbers in [N], Go's [int] results that can be negative ([strings.Index])
    are in [Z].  Go maps are [gmap]s; wherever the source ranges over a map
    the iteration order is a parameter of the embedding, constrained only to
    enumerate the map ([≡ₚ map_to_list]), because Go leaves it unspecified.
    A function that ranges over a map therefore comes as a function of the
    order ([..In]), as one run in the order of [map_to_list] (the source's
    name), and as the relation of all its runs ([.._runs]); the properties
    are proved of all runs.

    The embedding covers the manifest parsers, the changelog parser, the
    rename mapper, the dependency differ, the contributor ranking and the
    pull-request linker.  The debug traces of [logrus] are left out. *)

From Stdlib Require Import ZArith NArith Ascii String List Bool Lia.
From stdpp Require Import gmap strings list fin_maps sorting.

(** ** unicode/utf8 *)

Module utf8.

Definition RuneError : N := 0xFFFD.
Definition RuneSelf : N := 0x80.
Definition UTFMax : nat := 4.

Definition between (lo hi b : N) : bool := ((lo <=? b) && (b <=? hi))%N.

(** The [first] table of the package, restricted to lead bytes of
    multi-byte encodings: the size of the encoding and the range accepted
    for its second byte.  [None] is the table's [xx] (invalid lead). *)
Definition first (b : N) : option (nat * N * N) :=
  if between 0xC2 0xDF b then Some (2%nat, 0x80%N, 0xBF%N)
  else if (b =? 0xE0)%N then Some (3%nat, 0xA0%N, 0xBF%N)
  else if between 0xE1 0xEC b then Some (3%nat, 0x80%N, 0xBF%N)
  else if (b =? 0xED)%N then Some (3%nat, 0x80%N, 0x9F%N)
  else if between 0xEE 0xEF b then Some (3%nat, 0x80%N, 0xBF%N)
  else if (b =? 0xF0)%N then Some (4%nat, 0x90%N, 0xBF%N)
  else if between 0xF1 0xF3 b then Some (4%nat, 0x80%N, 0xBF%N)
  else if (b =? 0xF4)%N then Some (4%nat, 0x80%N, 0x8F%N)
  else None.

Definition maskx (b : N) : N := N.land b 0x3F.

(** [DecodeRuneInString]: the rune at the head of [s] and its width in
    bytes; an invalid or truncated encoding is [(RuneError, 1)], the empty
    string [(RuneError, 0)]. *)
Definition DecodeRuneInString (s : string) : N * nat :=
  match s with
  | EmptyString => (RuneError, 0)
  | String c0 t0 =>
    let s0 := N_of_ascii c0 in
    if (s0 <? RuneSelf)%N then (s0, 1)
    else match first s0 with
      | None => (RuneError, 1)
      | Some (sz, lo, hi) =>
        match t0 with
        | EmptyString => (RuneError, 1)
        | String c1 t1 =>
          let s1 := N_of_ascii c1 in
          if negb (between lo hi s1) then (RuneError, 1)
          else if (sz <=? 2)%nat
          then (N.lor (N.shiftl (N.land s0 0x1F) 6) (maskx s1), 2)
          else match t1 with
            | EmptyString => (RuneError, 1)
            | String c2 t2 =>
              let s2 := N_of_ascii c2 in
              if negb (between 0x80 0xBF s2) then (RuneError, 1)
              else if (sz <=? 3)%nat
              then (N.lor (N.shiftl (N.land s0 0x0F) 12)
                      (N.lor (N.shiftl (maskx s1) 6) (maskx s2)), 3)
              else match t2 with
                | EmptyString => (RuneError, 1)
                | String c3 _ =>
                  let s3 := N_of_ascii c3 in
                  if negb (between 0x80 0xBF s3) then (RuneError, 1)
                  else (N.lor (N.shiftl (N.land s0 0x07) 18)
                          (N.lor (N.shiftl (maskx s1) 12)
                             (N.lor (N.shiftl (maskx s2) 6) (maskx s3))), 4)
                end
            end
        end
      end
  end.

Definition RuneStart (b : N) : bool := negb (N.land b 0xC0 =? 0x80)%N.

(** The backwards walk of [DecodeLastRuneInString]: [back] holds the bytes
    before the last one, nearest first; at most [UTFMax - 1] of them are
    inspected for a rune start.  The result is the candidate encoding in
    reading order. *)
Fixpoint findStart (fuel : nat) (back seg : string) : option string :=
  match fuel, back with
  | S fuel', String c back' =>
    if RuneStart (N_of_ascii c) then Some (String c seg)
    else findStart fuel' back' (String c seg)
  | _, _ => None
  end.

(** [DecodeLastRuneInString], on the string given last byte first. *)
Definition DecodeLastRuneRev (r : string) : N * nat :=
  match r with
  | EmptyString => (RuneError, 0)
  | String c back =>
    let b := N_of_ascii c in
    if (b <? RuneSelf)%N then (b, 1)
    else match findStart (UTFMax - 1) back (String c EmptyString) with
      | None => (RuneError, 1)
      | Some seg =>
        let '(rn, size) := DecodeRuneInString seg in
        if (size =? String.length seg)%nat then (rn, size) else (RuneError, 1)
      end
  end.

Definition DecodeLastRuneInString (s : string) : N * nat :=
  DecodeLastRuneRev (String.rev s).

End utf8.

(** ** unicode *)

Module unicode.

Definition MaxLatin1 : N := 0xFF.

(** [IsSpace]: the Latin-1 cases are listed in the function, the others
    are the [White_Space] range table. *)
Definition IsSpace (r : N) : bool :=
  if (r <=? MaxLatin1)%N
  then utf8.between 0x09 0x0D r || (r =? 0x20)%N || (r =? 0x85)%N || (r =? 0xA0)%N
  else (r =? 0x1680)%N || utf8.between 0x2000 0x200A r
       || utf8.between 0x2028 0x2029 r || (r =? 0x202F)%N
       || (r =? 0x205F)%N || (r =? 0x3000)%N.

End unicode.

(** ** strings *)

Module strings.

Definition snoc (s : string) (c : ascii) : string := s +:+ String c EmptyString.

(** A field under construction is emitted when it is not empty. *)
Definition flush (cur : string) : list string :=
  match cur with EmptyString => [] | _ => [cur] end.

(** [FieldsFunc]: one pass over the runes of [s].  [skip] counts the bytes
    of the current rune still to be consumed, [sep] tells whether that
    rune satisfied [f], [cur] is the field being built. *)
Fixpoint FieldsFuncGo (f : N → bool) (skip : nat) (sep : bool)
    (cur s : string) : list string :=
  match s with
  | EmptyString => flush cur
  | String c t =>
    match skip with
    | S k =>
      if sep then FieldsFuncGo f k sep cur t
      else FieldsFuncGo f k sep (snoc cur c) t
    | O =>
      let '(r, size) := utf8.DecodeRuneInString s in
      if f r then flush cur ++ FieldsFuncGo f (size - 1) true EmptyString t
      else FieldsFuncGo f (size - 1) false (snoc cur c) t
    end
  end.

Definition FieldsFunc (s : string) (f : N → bool) : list string :=
  FieldsFuncGo f 0 false EmptyString s.

Definition Fields (s : string) : list string := FieldsFunc s unicode.IsSpace.

(** [TrimLeftFunc] and [TrimRightFunc]; the latter walks the string from
    its end with [DecodeLastRuneInString]. *)
Fixpoint TrimLeftGo (f : N → bool) (skip : nat) (s : string) : string :=
  match s with
  | EmptyString => EmptyString
  | String _ t =>
    match skip with
    | S k => TrimLeftGo f k t
    | O =>
      let '(r, size) := utf8.DecodeRuneInString s in
      if f r then TrimLeftGo f (size - 1) t else s
    end
  end.

Fixpoint TrimRightGo (f : N → bool) (skip : nat) (r : string) : string :=
  match r with
  | EmptyString => EmptyString
  | String _ t =>
    match skip with
    | S k => TrimRightGo f k t
    | O =>
      let '(rn, size) := utf8.DecodeLastRuneRev r in
      if f rn then TrimRightGo f (size - 1) t else r
    end
  end.

Definition TrimLeftFunc (s : string) (f : N → bool) : string := TrimLeftGo f 0 s.
Definition TrimRightFunc (s : string) (f : N → bool) : string :=
  String.rev (TrimRightGo f 0 (String.rev s)).

Definition TrimSpace (s : string) : string :=
  TrimRightFunc (TrimLeftFunc s unicode.IsSpace) unicode.IsSpace.

(** [Index]: byte offset of the first occurrence of [substr], or -1. *)
Fixpoint IndexFrom (i : Z) (s substr : string) : Z :=
  if String.prefix substr s then i
  else match s with
    | EmptyString => (-1)%Z
    | String _ t => IndexFrom (i + 1) t substr
    end.

Definition Index (s substr : string) : Z := IndexFrom 0 s substr.

Definition Join (elems : list string) (sep : string) : string :=
  String.concat sep elems.

(** Slice expressions [s[:i]] and [s[i:]].  Go panics when [i] is out of
    range; every use in [util.go] is guarded so that [0 <= i <= len(s)]. *)
Definition sliceTo (s : string) (i : Z) : string :=
  String.substring 0 (Z.to_nat i) s.
Definition sliceFrom (s : string) (i : Z) : string :=
  String.substring (Z.to_nat i) (String.length s - Z.to_nat i) s.

End strings.


(** ** Errors and results

    The error values the file can produce, with the text [Error()] gives
    for each; [%v] and [%s] print an error through that text. *)

Inductive error : Type :=
| ErrInvalidConfigFormat (ln : string)
    (* fmt.Errorf("invalid config format: %s", ln) *)
| ErrPoorlyFormattedVersion (version : string)
    (* fmt.Errorf("invalid go.mod file, poorly formatted version in requires section %s", parts[1]) *)
| ErrTooLong
    (* bufio.ErrTooLong *)
| ErrGit (err o : string)
    (* fmt.Errorf("%s: %s", err, o) in git *)
| ErrNoDepFile (err err2 : error).
    (* errors.Errorf("finding current dep file failed. ...", err, err2) *)

Fixpoint Error (e : error) : string :=
  match e with
  | ErrInvalidConfigFormat ln => "invalid config format: " +:+ ln
  | ErrPoorlyFormattedVersion v =>
    "invalid go.mod file, poorly formatted version in requires section " +:+ v
  | ErrTooLong => "bufio.Scanner: token too long"
  | ErrGit err o => err +:+ ": " +:+ o
  | ErrNoDepFile err err2 =>
    "finding current dep file failed. vendor.conf error: " +:+ Error err
      +:+ ", go.mod error: " +:+ Error err2
  end.

(** What a call yields: a value, a returned [error], or a run-time panic. *)
Inductive result (A : Type) : Type :=
| Ok (a : A)
| Err (e : error)
| Panic (msg : string).

Arguments Ok {A} a.
Arguments Err {A} e.
Arguments Panic {A} msg.

(** ** bufio *)

Module bufio.

Definition MaxScanTokenSize : N := 65536.

(** [dropCR] removes one trailing carriage return. *)
Fixpoint dropCR (data : string) : string :=
  match data with
  | EmptyString => EmptyString
  | String c EmptyString => if (c =? "013")%char then EmptyString else data
  | String c t => String c (dropCR t)
  end.

(** A [Scanner] with the default [ScanLines] split function over an
    in-memory reader, as the stream it delivers: the tokens of the
    successive [Scan] calls that return true and the value of [Err] once
    [Scan] has returned false.  [cur] is the line read so far and [n] its
    length.  A line of [MaxScanTokenSize] bytes or more fills the buffer
    before its end is seen and stops the scan with [ErrTooLong]; a final
    line without newline is a token unless it is empty. *)
Fixpoint ScanLinesFrom (cur : string) (n : N) (data : string)
    : list string * option error :=
  match data with
  | EmptyString =>
    if (n =? 0)%N then ([], None)
    else if (MaxScanTokenSize <=? n)%N then ([], Some ErrTooLong)
    else ([dropCR cur], None)
  | String c t =>
    if (c =? "010")%char then
      if (MaxScanTokenSize <=? n)%N then ([], Some ErrTooLong)
      else let '(toks, err) := ScanLinesFrom EmptyString 0 t in
           (dropCR cur :: toks, err)
    else ScanLinesFrom (strings.snoc cur c) (n + 1) t
  end.

Definition NewScanner (r : string) : list string * option error :=
  ScanLinesFrom EmptyString 0 r.

End bufio.

(** ** regexp

    The two expressions of the file, each as the matcher it compiles to.
    Both contain ASCII literals and classes only, so matching bytes and
    matching runes agree. *)

Module regexp.

Definition isDigit (c : ascii) : bool := utf8.between 0x30 0x39 (N_of_ascii c).
Definition isLowerHex (c : ascii) : bool :=
  isDigit c || utf8.between 0x61 0x66 (N_of_ascii c).

(** [`[0-9a-f]{40}`] is not anchored: [Match] reports whether the input
    contains [n = 40] consecutive bytes of the class.  [left] counts the
    class bytes still missing from the current run. *)
Fixpoint classRun (cls : ascii → bool) (n left : nat) (b : string) : bool :=
  match left with
  | O => true
  | S l =>
    match b with
    | EmptyString => false
    | String c t => if cls c then classRun cls n l t else classRun cls n n t
    end
  end.

Definition MatchHex40 (b : string) : bool := classRun isLowerHex 40 40 b.

(** [`^Merge pull request #[0-9]+`]: [^] (without the multi-line flag)
    matches at the beginning of the text only, and [+] is greedy, so the
    one possible match starts at offset 0 and extends over the literal and
    the longest run of digits after it, which must not be empty. *)
Definition mergePRLiteral : string := "Merge pull request #".

Fixpoint digitRun (s : string) : nat :=
  match s with
  | String c t => if isDigit c then S (digitRun t) else 0
  | EmptyString => 0
  end.

(** Length of the match, if there is one. *)
Definition FindMergePR (src : string) : option nat :=
  if String.prefix mergePRLiteral src then
    match digitRun (strings.sliceFrom src (Z.of_nat (String.length mergePRLiteral))) with
    | O => None
    | S d => Some (String.length mergePRLiteral + S d)
    end
  else None.

(** [ReplaceAllStringFunc] for that expression: the match is replaced by
    [repl] applied to it, the text around it is copied. *)
Definition ReplaceAllStringFunc (src : string) (repl : string → string) : string :=
  match FindMergePR src with
  | None => src
  | Some n =>
    repl (strings.sliceTo src (Z.of_nat n)) +:+ strings.sliceFrom src (Z.of_nat n)
  end.

End regexp.

(** ** Data model *)

Module dependency.
(** Modelled from the spec: the struct [dependency] is declared outside
    [util.go]; section 3 of the specification gives its four string
    fields. *)
Record t : Type := mk {
  Name : string;
  Commit : string;
  CloneURL : string;
  Previous : string
}.
End dependency.
Abbreviation dependency := dependency.t.

Module change.
(** Modelled from the spec: the struct [change] is declared outside
    [util.go]; section 3 of the specification gives its two string
    fields. *)
Record t : Type := mk {
  Commit : string;
  Description : string
}.
End change.
Abbreviation change := change.t.

Module projectRename.
(** Modelled from the spec: the struct [projectRename] is declared outside
    [util.go]; section 3 of the specification gives its fields [Old] and
    [New]. *)
Record t : Type := mk {
  Old : string;
  New : string
}.
End projectRename.
Abbreviation projectRename := projectRename.t.

Module contributor.
(** [type contributor struct { name string; email string }] *)
Record t : Type := mk {
  name : string;
  email : string
}.
End contributor.
Abbreviation contributor := contributor.t.

#[global] Instance dependency_eq_dec : EqDecision dependency.
Proof. solve_decision. Defined.

#[global] Instance change_eq_dec : EqDecision change.
Proof. solve_decision. Defined.

#[global] Instance projectRename_eq_dec : EqDecision projectRename.
Proof. solve_decision. Defined.

#[global] Instance contributor_eq_dec : EqDecision contributor.
Proof. solve_decision. Defined.

#[global] Instance contributor_countable : Countable contributor.
Proof.
  apply (inj_countable'
           (λ c, (contributor.name c, contributor.email c))
           (λ p, contributor.mk p.1 p.2)).
  by intros [].
Defined.

(** ** util.go *)

Definition vendorConf : string := "vendor.conf".
Definition goMod : string := "go.mod".

(** [parts[i]] where the source has checked [len(parts)] beforehand. *)
Definition at_ (parts : list string) (i : nat) : string := nth i parts EmptyString.

Definition sanitizeLine (line commentDelim : string) : string :=
  let ln := strings.TrimSpace line in
  if (ln =? "")%string then ""
  else
    let cidx := strings.Index ln commentDelim in
    (* whole line is commented *)
    if (cidx =? 0)%Z then ""
    else
      let ln := if (0 <? cidx)%Z then strings.sliceTo ln cidx else ln in
      strings.TrimSpace ln.

Definition isDash (c : N) : bool := (c =? 0x2D)%N.

Definition getCommitOrVersion (cov : string) : string :=
  let dashFields := strings.FieldsFunc cov isDash in
  if (length dashFields =? 1)%nat || (length dashFields =? 2)%nat then
    let incpIdx := strings.Index cov "+incompatible" in
    if (0 <? incpIdx)%Z then strings.sliceTo cov incpIdx else cov
  else if (length dashFields =? 3)%nat then
    (* If there are three fields, use the last (the commit) *)
    at_ dashFields 2
  else "".

(** The loop of [parseGoModDependencies] over the scanner's stream
    [(toks, err)], with the loop variables [foundRequire] and [deps]. *)
Fixpoint goModLoop (toks : list string) (err : option error)
    (foundRequire : bool) (deps : list dependency) : result (list dependency) :=
  match toks with
  | [] =>
    (* s.Scan() is false: if err := s.Err(); err != nil *)
    match err with Some e => Err e | None => Ok deps end
  | text :: rest =>
    let ln := sanitizeLine text "//" in
    if (ln =? "")%string then goModLoop rest err foundRequire deps
    else
      let parts := strings.Fields ln in
      let numParts := length parts in
      (* scan the file until we find `require (` *)
      if negb foundRequire && (numParts =? 2)%nat then
        if (at_ parts 0 =? "require")%string && (at_ parts 1 =? "(")%string
        then goModLoop rest err true deps
        else goModLoop rest err foundRequire deps
      else if negb (numParts =? 2)%nat then
        if (numParts =? 1)%nat && (at_ parts 0 =? ")")%string
        then
          (* break: the scanner has reported no error up to here and is
             not asked for more, so s.Err() is nil *)
          Ok deps
        else Err (ErrInvalidConfigFormat ln)
      else
        let commitOrVersion := getCommitOrVersion (at_ parts 1) in
        if (commitOrVersion =? "")%string
        then Err (ErrPoorlyFormattedVersion (at_ parts 1))
        else
          goModLoop rest err foundRequire
            (deps ++ [dependency.mk (at_ parts 0) commitOrVersion
                        ("git://" +:+ at_ parts 0) ""])
  end.

Definition parseGoModDependencies (r : string) : result (list dependency) :=
  let '(toks, err) := bufio.NewScanner r in
  goModLoop toks err false [].

(** The loop of [parseVendorConfDependencies]. *)
Fixpoint vendorConfLoop (toks : list string) (err : option error)
    (deps : list dependency) : result (list dependency) :=
  match toks with
  | [] => match err with Some e => Err e | None => Ok deps end
  | text :: rest =>
    let ln := sanitizeLine text "#" in
    if (ln =? "")%string then vendorConfLoop rest err deps
    else
      let parts := strings.Fields ln in
      if negb (length parts =? 2)%nat && negb (length parts =? 3)%nat
      then Err (ErrInvalidConfigFormat ln)
      else
        let cloneURL :=
          if (length parts =? 3)%nat then at_ parts 2
          else "git://" +:+ at_ parts 0 in
        (* trim the commit to 12 characters to match go mod length *)
        let commitOrVersion := at_ parts 1 in
        let commitOrVersion :=
          if regexp.MatchHex40 commitOrVersion
          then strings.sliceTo commitOrVersion 12
          else commitOrVersion in
        vendorConfLoop rest err
          (deps ++ [dependency.mk (at_ parts 0) commitOrVersion cloneURL ""])
  end.

Definition parseVendorConfDependencies (r : string) : result (list dependency) :=
  let '(toks, err) := bufio.NewScanner r in
  vendorConfLoop toks err [].

(** The loop of [parseChangelog].  Neither [fields[0]] nor [fields[1:]]
    is guarded in the source.  Of the two operands of the composite
    literal the call [strings.Join(fields[1:], " ")] is evaluated first,
    the index expression [fields[0]] after it: on a line without fields
    it is the slice expression [fields[1:]] that panics. *)
Fixpoint changelogLoop (toks : list string) (err : option error)
    (changes : list change) : result (list change) :=
  match toks with
  | [] => match err with Some e => Err e | None => Ok changes end
  | text :: rest =>
    let fields := strings.Fields text in
    match fields with
    | [] => Panic "runtime error: slice bounds out of range [1:0]"
    | commit :: tail =>
      changelogLoop rest err
        (changes ++ [change.mk commit (strings.Join tail " ")])
    end
  end.

Definition parseChangelog (changelog : string) : result (list change) :=
  let '(toks, err) := bufio.NewScanner changelog in
  changelogLoop toks err [].

(** *** Repository access

    [git] runs an external process.  The process is a parameter,
    [CombinedOutput]: for the argument vector given to
    [exec.Command("git", ...)] it yields the combined output and, when the
    command failed, the text of the error.  A computation that may run
    [git] threads the list of argument vectors run so far. *)

Record process : Type := {
  gitConfigs : gmap string string;
  CombinedOutput : list string → string * option string
}.

Definition exec (A : Type) : Type := list (list string) → A * list (list string).

Definition exec_ret {A} (a : A) : exec A := λ tr, (a, tr).
Definition exec_bind {A B} (c : exec A) (k : A → exec B) : exec B :=
  λ tr, let '(a, tr') := c tr in k a tr'.

Notation "c >>= k" := (exec_bind c k) (at level 58, left associativity).

(** [git]: the [-c key=value] overrides of [gitConfigs] (ranged over in
    the order of [map_to_list]; with the initial, empty map there is none)
    come before [args]. *)
Definition gitArgsOf (p : process) (args : list string) : list string :=
  flat_map (λ kv, ["-c"; kv.1 +:+ "=" +:+ kv.2]) (map_to_list (gitConfigs p))
    ++ args.

Definition git (p : process) (args : list string) : exec (result string) :=
  λ tr,
    let gitArgs := gitArgsOf p args in
    let '(o, err) := CombinedOutput p gitArgs in
    (match err with
     | Some e => Err (ErrGit e o)
     | None => Ok o
     end, tr ++ [gitArgs]).

(** The [io.Reader] that [fileFromRev] returns is a [bytes.Reader] over
    the output of [git show]; it is modelled by that output. *)
Definition fileFromRev (p : process) (rev file : string) : exec (result string) :=
  git p ["show"; rev +:+ ":" +:+ file].

Definition parseDependencies (p : process) (commit : string)
    : exec (result (list dependency)) :=
  fileFromRev p commit vendorConf >>= λ r,
  match r with
  | Ok rd => exec_ret (parseVendorConfDependencies rd)
  | Panic msg => exec_ret (Panic msg)
  | Err err =>
    fileFromRev p commit goMod >>= λ r2,
    match r2 with
    | Ok rd => exec_ret (parseGoModDependencies rd)
    | Panic msg => exec_ret (Panic msg)
    | Err err2 => exec_ret (Err (ErrNoDepFile err err2))
    end
  end.

(** *** Renames

    [renameMap] is filled while ranging over [renames]; [order] is the
    order of that range.  Two entries with the same [Old] overwrite each
    other, the later one in [order] stays.  The debug trace of
    [logrus.Debugf] is not part of the model. *)
Definition renameMapOf (order : list (string * projectRename))
    : gmap string (string * string) :=
  foldl (λ renameMap sr,
           <[projectRename.Old sr.2 := (sr.1, projectRename.New sr.2)]> renameMap)
        ∅ order.

Definition setName (d : dependency) (name : string) : dependency :=
  dependency.mk name (dependency.Commit d) (dependency.CloneURL d)
    (dependency.Previous d).

(** [for i := range deps]: the slice is updated in place, the model
    returns its contents after the loop. *)
Fixpoint renameLoop (renameMap : gmap string (string * string))
    (deps : list dependency) : list dependency :=
  match deps with
  | [] => []
  | d :: rest =>
    match renameMap !! dependency.Name d with
    | Some updated => setName d updated.2 :: renameLoop renameMap rest
    | None => d :: renameLoop renameMap rest
    end
  end.

Definition renameDependenciesIn (order : list (string * projectRename))
    (deps : list dependency) (renames : gmap string projectRename)
    : list dependency :=
  if (size renames =? 0)%nat then deps
  else renameLoop (renameMapOf order) deps.

(** One run, ranging in the order of [map_to_list]. *)
Definition renameDependencies (deps : list dependency)
    (renames : gmap string projectRename) : list dependency :=
  renameDependenciesIn (map_to_list renames) deps renames.

(** Every run: any order that enumerates [renames]. *)
Definition renameDependencies_runs (deps : list dependency)
    (renames : gmap string projectRename) (deps' : list dependency) : Prop :=
  ∃ order, order ≡ₚ map_to_list renames
           ∧ deps' = renameDependenciesIn order deps renames.

(** *** Dependency diff *)

Definition toDepMap (deps : list dependency) : gmap string dependency :=
  foldl (λ out d, <[dependency.Name d := d]> out) ∅ deps.

Definition setPrevious (c : dependency) (previous : string) : dependency :=
  dependency.mk (dependency.Name c) (dependency.Commit c)
    (dependency.CloneURL c) previous.

(** Body of [for name, c := range cm]. *)
Definition updatedDepsStep (pm : gmap string dependency)
    (updated : list dependency) (entry : string * dependency)
    : list dependency :=
  let '(name, c) := entry in
  match pm !! name with
  | None =>
    (* it is a new dep and should be noted *)
    updated ++ [c]
  | Some d =>
    if negb (dependency.Commit d =? dependency.Commit c)%string
    then updated ++ [setPrevious c (dependency.Commit d)]
    else updated
  end.

Definition updatedDepsIn (order : list (string * dependency))
    (previous : list dependency) : list dependency :=
  foldl (updatedDepsStep (toDepMap previous)) [] order.

(** One run, ranging over [cm] in the order of [map_to_list]. *)
Definition updatedDeps (previous deps : list dependency) : list dependency :=
  updatedDepsIn (map_to_list (toDepMap deps)) previous.

(** Every run: any order that enumerates [cm]. *)
Definition updatedDeps_runs (previous deps updated : list dependency) : Prop :=
  ∃ order, order ≡ₚ map_to_list (toDepMap deps)
           ∧ updated = updatedDepsIn order previous.

(** *** Contributors *)

Module contribstat.
Record t : Type := mk {
  name : string;
  email : string;
  count : Z
}.
End contribstat.
Abbreviation contribstat := contribstat.t.

(** The [less] function given to [sort.Slice]. *)
Definition less (a b : contribstat) : bool :=
  if (contribstat.count a =? contribstat.count b)%Z
  then String.ltb (contribstat.name a) (contribstat.name b)
  else (contribstat.count b <? contribstat.count a)%Z.

(** ** sort

    [sort.Slice] is not stable and its algorithm is not part of its
    contract.  The contract, for a [less] that is a strict weak order: the
    slice is permuted, and afterwards no element is less than its
    predecessor. *)
Module sort.

Definition notAfter {A} (less : A → A → bool) (a b : A) : Prop := less b a = false.

#[global] Instance notAfter_dec {A} (less : A → A → bool) (a b : A)
  : Decision (notAfter less a b).
Proof. unfold notAfter. apply _. Defined.

Definition Slice_runs {A} (less : A → A → bool) (x x' : list A) : Prop :=
  x' ≡ₚ x ∧ Sorted (notAfter less) x'.

(** One run: a merge sort. *)
Definition Slice {A} (less : A → A → bool) (x : list A) : list A :=
  merge_sort (notAfter less) x.

End sort.

Definition statsOf (order : list (contributor * Z)) : list contribstat :=
  map (λ cc, contribstat.mk (contributor.name cc.1) (contributor.email cc.1) cc.2)
      order.

Definition namesOf (all : list contribstat) : list string :=
  map contribstat.name all.

(** One run: range in the order of [map_to_list], sort by merging. *)
Definition orderContributors (contributors : gmap contributor Z) : list string :=
  namesOf (sort.Slice less (statsOf (map_to_list contributors))).

(** Every run: any order of the range, any outcome of [sort.Slice]. *)
Definition orderContributors_runs (contributors : gmap contributor Z)
    (names : list string) : Prop :=
  ∃ order all,
    order ≡ₚ map_to_list contributors
    ∧ sort.Slice_runs less (statsOf order) all
    ∧ names = namesOf all.

(** *** Links *)

Definition githubPRLink (repo : string) (c : change) : result string :=
  let message :=
    regexp.ReplaceAllStringFunc (change.Description c) (λ m,
      let idx := strings.Index m "#" in
      let pr := strings.sliceFrom m (idx + 1) in
      let link := "https://github.com/" +:+ repo +:+ "/pull/" +:+ pr in
      (* fmt.Sprintf("%s [#%s](%s)", m[:idx], pr, link) *)
      strings.sliceTo m idx +:+ " [#" +:+ pr +:+ "](" +:+ link +:+ ")") in
  Ok message.

(** ** Vocabulary of the properties

    Definitions the statements below are written with; none of them is
    part of [util.go]. *)

(** What one entry of the range of [updatedDeps] adds to [updated]. *)
Definition emitted (pm : gmap string dependency) (entry : string * dependency)
    : list dependency :=
  updatedDepsStep pm [] entry.

(** The ranking in the words of the specification: descending by commit
    count, ties broken by ascending name. *)
Definition ranksBefore (a b : contribstat) : Prop :=
  (contribstat.count b < contribstat.count a)%Z
  ∨ (contribstat.count a = contribstat.count b
     ∧ String.le (contribstat.name a) (contribstat.name b)).

(** The part of a [contribstat] that [less] looks at. *)
Definition rankKey (a : contribstat) : Z * string :=
  (contribstat.count a, contribstat.name a).

(** The outcome of looking [file] up at [commit], and the command that
    does it. *)
Definition lookupCommand (p : process) (commit file : string) : list string :=
  gitArgsOf p ["show"; commit +:+ ":" +:+ file].

Definition lookupOutcome (p : process) (commit file : string) : result string :=
  (fileFromRev p commit file []).1.

(** The errors a manifest parser returns. *)
Definition isParseError (e : error) : Prop :=
  match e with
  | ErrInvalidConfigFormat _ | ErrPoorlyFormattedVersion _ | ErrTooLong => True
  | ErrGit _ _ | ErrNoDepFile _ _ => False
  end.

(** Line feed and tab, for writing inputs. *)
Definition LF : string := String "010" EmptyString.
Definition TAB : string := String "009" EmptyString.

(** [allOf cls s]: every byte of [s] is in the class. *)
Fixpoint allOf (cls : ascii → bool) (s : string) : bool :=
  match s with
  | EmptyString => true
  | String c t => cls c && allOf cls t
  end.

(** [s] contains [n] consecutive bytes of the class. *)
Definition containsRun (cls : ascii → bool) (n : nat) (s : string) : Prop :=
  ∃ pre run post,
    s = pre +:+ run +:+ post ∧ String.length run = n ∧ allOf cls run = true.

(** In the words of the specification: "a 40-character lowercase hex
    string". *)
Definition is40Hex (s : string) : bool :=
  (String.length s =? 40)%nat && allOf regexp.isLowerHex s.

(** In the words of the specification: the input "with any
    [+incompatible] suffix stripped" ([strings.TrimSuffix]). *)
Fixpoint stripSuffix (suffix s : string) : string :=
  if (s =? suffix)%string then EmptyString
  else match s with
       | EmptyString => EmptyString
       | String c t => String c (stripSuffix suffix t)
       end.

(** ** Sample inputs *)

(** A repository at a revision with a go.mod and without vendor.conf. *)
Definition exampleRepo : process := {|
  gitConfigs := ∅;
  CombinedOutput := λ gitArgs,
    if decide (gitArgs = ["show"; "v1.0.0:go.mod"])
    then ("module example.com/m" +:+ LF +:+ "require (" +:+ LF
            +:+ TAB +:+ "example.com/c v1.2.3" +:+ LF +:+ ")" +:+ LF, None)
    else ("fatal: path 'vendor.conf' does not exist in 'v1.0.0'",
          Some "exit status 128")
|}.

Definition examplePrevious : list dependency :=
  [dependency.mk "A" "v1" "git://A" ""].

Definition exampleCurrent : list dependency :=
  [dependency.mk "A" "v2" "git://A" ""; dependency.mk "B" "v1" "git://B" ""].

Definition exampleDuplicates : list dependency :=
  [dependency.mk "A" "v1" "git://A" ""; dependency.mk "A" "v2" "git://A" ""].

Definition exampleRenames : gmap string projectRename :=
  {[ "pkg" := projectRename.mk "old/pkg" "new/pkg" ]}.

Definition exampleRenamed : list dependency :=
  [dependency.mk "old/pkg" "v1" "git://old/pkg" "";
   dependency.mk "other/pkg" "v3" "git://other/pkg" ""].

Definition exampleContributors : gmap contributor Z :=
  <[contributor.mk "A" "a@example.com" := 3%Z]>
    (<[contributor.mk "B" "b@example.com" := 3%Z]>
       {[contributor.mk "C" "c@example.com" := 1%Z]}).

Definition exampleGoModLine : string :=
  TAB +:+ "github.com/a/b v2.0.0+incompatible // indirect".

(** ** The rest of util.go

    Two functions are left aside, [loadRelease] and [getTemplate]: they
    hand a path to [toml.DecodeFile] and to [os.Open] and pass on what
    these return, so that a model of them would be a model of the TOML
    decoder and of the file system. *)

(** *** path/filepath, strings: further functions *)

Module filepath.

Definition isPathSeparator (c : ascii) : bool := (c =? "/")%char.

(** [for len(path) > 0 && os.IsPathSeparator(path[len(path)-1])]: the
    path is given last byte first. *)
Fixpoint stripSeparatorsRev (r : string) : string :=
  match r with
  | String c t => if isPathSeparator c then stripSeparatorsRev t else r
  | EmptyString => EmptyString
  end.

(** The last element: the bytes after the last separator, collected in
    [acc] while the path is walked from its end. *)
Fixpoint lastElementRev (r acc : string) : string :=
  match r with
  | String c t => if isPathSeparator c then acc else lastElementRev t (String c acc)
  | EmptyString => acc
  end.

(** [filepath.Base] on a system whose separator is [/] and that has no
    volume names. *)
Definition Base (path : string) : string :=
  if (path =? "")%string then "."
  else
    let path := lastElementRev (stripSeparatorsRev (String.rev path)) EmptyString in
    (* If empty now, it had only slashes. *)
    if (path =? "")%string then "/" else path.

End filepath.

Module strings_more.

Definition HasSuffix (s suffix : string) : bool :=
  (String.length suffix <=? String.length s)%nat
  && (strings.sliceFrom s
        (Z.of_nat (String.length s) - Z.of_nat (String.length suffix))
      =? suffix)%string.

Definition TrimSuffix (s suffix : string) : string :=
  if HasSuffix s suffix
  then strings.sliceTo s
         (Z.of_nat (String.length s) - Z.of_nat (String.length suffix))
  else s.

(** The loop of [genSplit]: at most [n] more pieces are cut off at [sep]
    before the rest of [s] closes the list. *)
Fixpoint genSplit (n : nat) (s sep : string) : list string :=
  match n with
  | O => [s]
  | S k =>
    let m := strings.Index s sep in
    if (m <? 0)%Z then [s]
    else strings.sliceTo s m
           :: genSplit k (strings.sliceFrom s (m + Z.of_nat (String.length sep))) sep
  end.

(** [SplitN(s, sep, n)] for [n >= 0] and a separator that is not empty
    (with an empty one Go splits after each UTF-8 sequence). *)
Definition SplitN (s sep : string) (n : nat) : list string :=
  match n with
  | O => []
  | S k => genSplit k s sep
  end.

End strings_more.

(** *** Go's [int]

    64 bits wide; addition wraps around. *)
Definition intWrap (z : Z) : Z := ((z + 2 ^ 63) mod 2 ^ 64 - 2 ^ 63)%Z.
Definition intAdd (a b : Z) : Z := intWrap (a + b).
Definition maxInt : Z := (2 ^ 63 - 1)%Z.
Definition minInt : Z := (- 2 ^ 63)%Z.

(** *** Tag, ranges, changelog *)

Definition parseTag (path : string) : string :=
  strings_more.TrimSuffix (filepath.Base path) ".toml".

Definition gitChangeDiff (previous commit : string) : string :=
  if negb (previous =? "")%string then previous +:+ ".." +:+ commit
  else commit.

Definition getChangelog (p : process) (previous commit : string)
    : exec (result string) :=
  git p ["log"; "--oneline"; gitChangeDiff previous commit].

Definition changelog (p : process) (previous commit : string)
    : exec (result (list change)) :=
  getChangelog p previous commit >>= λ r,
  match r with
  | Err err => exec_ret (Err err)
  | Panic msg => exec_ret (Panic msg)
  | Ok raw => exec_ret (parseChangelog raw)
  end.

(** *** Links *)

Definition githubCommitLink (p : process) (repo : string) (c : change)
    : exec (result string) :=
  git p ["rev-parse"; change.Commit c] >>= λ r,
  match r with
  | Err err => exec_ret (Err err)
  | Panic msg => exec_ret (Panic msg)
  | Ok full =>
    let commit := strings.TrimSpace full in
    exec_ret (Ok ("https://github.com/" +:+ repo +:+ "/commit/" +:+ commit))
  end.

(** [linkifyChanges]: the slice is rewritten in place, entry by entry;
    the model returns the error (or panic) of the call together with the
    contents of the slice when the call ends.  Both function arguments
    see the entry as it was before it is rewritten. *)
Fixpoint linkifyChanges (c : list change)
    (commit msg : change → exec (result string))
    : exec (result unit * list change) :=
  match c with
  | [] => exec_ret (Ok tt, [])
  | ci :: rest =>
    commit ci >>= λ r,
    match r with
    | Err err => exec_ret (Err err, ci :: rest)
    | Panic m => exec_ret (Panic m, ci :: rest)
    | Ok commitLink =>
      msg ci >>= λ r2,
      match r2 with
      | Err err => exec_ret (Err err, ci :: rest)
      | Panic m => exec_ret (Panic m, ci :: rest)
      | Ok description =>
        let ci' :=
          change.mk ("[`" +:+ change.Commit ci +:+ "`](" +:+ commitLink +:+ ")")
            description in
        linkifyChanges rest commit msg >>= λ out,
        exec_ret (out.1, ci' :: out.2)
      end
    end
  end.

(** *** Contributor tallies *)

(** How a call of [addContributors] ends: with [nil], with an error of
    [git] or of the scanner, with its own error, whose text quotes the
    line with [%q], or with a panic. *)
Inductive authorsResult : Type :=
| AuthorsNil
| AuthorsErr (e : error)
| ErrInvalidAuthorLine (text : string)
    (* errors.Errorf("invalid author line: %q", s.Text()) *)
| AuthorsPanic (msg : string).

(** The loop of [addContributors] over the scanner's stream.  The map
    is updated in place: the model returns it as it is when the loop
    ends, whether with an error or not.  [contributors[c]] is 0 for a key
    that is not in the map. *)
Fixpoint addContributorsLoop (toks : list string) (err : option error)
    (contributors : gmap contributor Z)
    : authorsResult * gmap contributor Z :=
  match toks with
  | [] =>
    (* return s.Err() *)
    (match err with Some e => AuthorsErr e | None => AuthorsNil end, contributors)
  | text :: rest =>
    let p := strings_more.SplitN text " " 2 in
    if negb (length p =? 2)%nat
    then (ErrInvalidAuthorLine text, contributors)
    else
      let c := contributor.mk (at_ p 1) (at_ p 0) in
      addContributorsLoop rest err
        (<[c := intAdd (default 0%Z (contributors !! c)) 1]> contributors)
  end.

Definition addContributors (p : process) (previous commit : string)
    (contributors : gmap contributor Z)
    : exec (authorsResult * gmap contributor Z) :=
  git p ["log"; "--format=%aE %aN"; gitChangeDiff previous commit] >>= λ r,
  match r with
  | Err err => exec_ret (AuthorsErr err, contributors)
  | Panic msg => exec_ret (AuthorsPanic msg, contributors)
  | Ok raw =>
    let '(toks, err) := bufio.NewScanner raw in
    exec_ret (addContributorsLoop toks err contributors)
  end.

(** ** Vocabulary of the further properties *)


(** No byte of [s] is a path separator. *)
Definition noSeparator (s : string) : bool :=
  allOf (λ c, negb (filepath.isPathSeparator c)) s.

(** A line that is neither blank nor a comment for the delimiter. *)
Definition hasContent (commentDelim text : string) : Prop :=
  sanitizeLine text commentDelim ≠ EmptyString.

#[global] Instance hasContent_dec commentDelim text :
  Decision (hasContent commentDelim text).
Proof. unfold hasContent. apply _. Defined.

(** What a vendor.conf line stands for: [d] is the record of [text]. *)
Definition vendorConfRecord (text : string) (d : dependency) : Prop :=
  ∃ commit tail,
    strings.Fields (sanitizeLine text "#") = dependency.Name d :: commit :: tail
    ∧ length tail ≤ 1
    ∧ dependency.Commit d
      = (if regexp.MatchHex40 commit then strings.sliceTo commit 12 else commit)
    ∧ dependency.CloneURL d
      = match tail with
        | [] => "git://" +:+ dependency.Name d
        | cloneURL :: _ => cloneURL
        end
    ∧ dependency.Previous d = EmptyString.

(** No byte of [s] is a line feed. *)
Definition noLineFeed (s : string) : bool :=
  allOf (λ c, negb (c =? "010")%char) s.

(** A line of [n] bytes [c]. *)
Fixpoint lineOf (n : nat) (c : ascii) : string :=
  match n with
  | O => EmptyString
  | S k => String c (lineOf k c)
  end.

Definition exampleLongLine : string := lineOf (N.to_nat 65536) "a".

(** A vendor.conf line the parser accepts: blank, a comment, or of two
    or three fields. *)
Definition vendorConfAccepts (text : string) : Prop :=
  sanitizeLine text "#" = EmptyString
  ∨ length (strings.Fields (sanitizeLine text "#")) = 2
  ∨ length (strings.Fields (sanitizeLine text "#")) = 3.

(** The marker line of go.mod, and the line that closes the block. *)
Definition isRequireMarker (text : string) : Prop :=
  strings.Fields (sanitizeLine text "//") = ["require"; "("].

Definition isBlockEnd (text : string) : Prop :=
  strings.Fields (sanitizeLine text "//") = [")"].

(** What every record of the go.mod parser satisfies. *)
Definition goModRecord (d : dependency) : Prop :=
  dependency.CloneURL d = "git://" +:+ dependency.Name d
  ∧ dependency.Previous d = EmptyString
  ∧ dependency.Name d ≠ EmptyString
  ∧ dependency.Commit d ≠ EmptyString.

(** What a log line stands for: [ch] is the change of [text]. *)
Definition changelogRecord (text : string) (ch : change) : Prop :=
  ∃ commit tail,
    strings.Fields text = commit :: tail
    ∧ ch = change.mk commit (strings.Join tail " ").

(** [deps] is what one of the two manifest parsers returns for [r]. *)
Definition parsedFrom (r : string) (deps : list dependency) : Prop :=
  parseVendorConfDependencies r = Ok deps
  ∨ parseGoModDependencies r = Ok deps.

(** No byte of [s] is a space. *)
Definition noSpace (s : string) : bool :=
  allOf (λ c, negb (c =? " ")%char) s.

(** The contributor an author line stands for: the e-mail address is the
    text before the first space, the name the text after it. *)
Definition authorOf (text : string) : contributor :=
  contributor.mk (at_ (strings_more.SplitN text " " 2) 1)
    (at_ (strings_more.SplitN text " " 2) 0).

(** The tally of [c] in [contributors], as [contributors[c]] reads it. *)
Definition tally (contributors : gmap contributor Z) (c : contributor) : Z :=
  default 0%Z (contributors !! c).

(** A repository in which every git command fails, and one that prints
    an object name for [rev-parse]. *)
Definition exampleBrokenRepo : process := {|
  gitConfigs := ∅;
  CombinedOutput := λ _, ("fatal: not a git repository", Some "exit status 128")
|}.

Definition exampleHashRepo : process := {|
  gitConfigs := ∅;
  CombinedOutput := λ _,
    ("0123456789abcdef0123456789abcdef01234567" +:+ LF, None)
|}.

(** A repository in which [git log] prints two lines, commits for
    [--oneline] and authors otherwise. *)
Definition exampleLogRepo : process := {|
  gitConfigs := ∅;
  CombinedOutput := λ args,
    if bool_decide ("--oneline" ∈ args)
    then ("abc123 Fix bug" +:+ LF +:+ "def456 Add feature" +:+ LF, None)
    else ("jane@example.com Jane Doe" +:+ LF +:+ "joe@example.com Joe" +:+ LF, None)
|}.

(** A repository that does not know the revision [badc0de]. *)
Definition exampleMixedRepo : process := {|
  gitConfigs := ∅;
  CombinedOutput := λ args,
    if bool_decide (args = ["rev-parse"; "badc0de"])
    then ("fatal: bad revision", Some "exit status 128")
    else ("0123456789abcdef0123456789abcdef01234567" +:+ LF, None)
|}.

Definition exampleChanges : list change :=
  [change.mk "0123456" "Merge pull request #42 from foo/bar";
   change.mk "badc0de" "Fix bug";
   change.mk "89abcde" "Add feature"].

(** Three renames, two of them of the same project to the same name. *)
Definition exampleAliases : gmap string projectRename :=
  <["containerd" := projectRename.mk "github.com/docker/containerd"
                      "github.com/containerd/containerd"]>
    (<["containerd-old" := projectRename.mk "github.com/docker/containerd"
                             "github.com/containerd/containerd"]>
       {["runc" := projectRename.mk "github.com/docker/runc"
                     "github.com/opencontainers/runc"]}).

Definition exampleAliasOrder : list (string * projectRename) :=
  [("containerd", projectRename.mk "github.com/docker/containerd"
                    "github.com/containerd/containerd");
   ("containerd-old", projectRename.mk "github.com/docker/containerd"
                        "github.com/containerd/containerd");
   ("runc", projectRename.mk "github.com/docker/runc"
              "github.com/opencontainers/runc")].

Definition exampleAliased : list dependency :=
  [dependency.mk "github.com/docker/containerd" "v1.0.0"
     "git://github.com/docker/containerd" "";
   dependency.mk "github.com/docker/runc" "v1.0.1" "git://github.com/docker/runc" "";
   dependency.mk "github.com/pkg/errors" "v0.9.1" "git://github.com/pkg/errors" ""].

(** The two functions that the release tool hands to [linkifyChanges],
    over the repository above. *)
Definition exampleCommitLink : change → exec (result string) :=
  githubCommitLink exampleMixedRepo "org/proj".

Definition exampleMessage : change → exec (result string) :=
  λ c, exec_ret (githubPRLink "org/proj" c).

(** [co] is [ci] after [linkifyChanges] has rewritten it, for functions
    that return [fc ci] and [fm ci]: both are results, the first is the
    link of the new [Commit], the second the new [Description]. *)
Definition linkedFrom (fc fm : change → result string) (ci co : change) : Prop :=
  ∃ commitLink description,
    fc ci = Ok commitLink
    ∧ fm ci = Ok description
    ∧ co = change.mk ("[`" +:+ change.Commit ci +:+ "`](" +:+ commitLink +:+ ")")
             description.

(** [out] is the failure [r]: the same error, or the same panic. *)
Definition failsWith (r : result string) (out : result unit) : Prop :=
  match r, out with
  | Err e, Err e' => e = e'
  | Panic m, Panic m' => m = m'
  | _, _ => False
  end.

(** [out] is what makes [linkifyChanges] stop at [ci]: the failure of
    the first function or, the first having returned a link, the failure
    of the second. *)
Definition stopsAt (fc fm : change → result string) (ci : change)
    (out : result unit) : Prop :=
  failsWith (fc ci) out
  ∨ (∃ commitLink, fc ci = Ok commitLink) ∧ failsWith (fm ci) out.
(** * Properties *)

(** ** Byte strings *)

Section string_facts.

Implicit Types (s t pre post sub : string) (c : ascii).

Lemma append_nil_l s : "" +:+ s = s.
Proof. reflexivity. Qed.

Lemma append_cons c s t : String c s +:+ t = String c (s +:+ t).
Proof. reflexivity. Qed.

Lemma append_nil_r s : s +:+ "" = s.
Proof. induction s as [|c s IH]; [done|]. by rewrite append_cons, IH. Qed.

Lemma append_assoc s t u : (s +:+ t) +:+ u = s +:+ (t +:+ u).
Proof. induction s as [|c s IH]; [done|]. by rewrite !append_cons, IH. Qed.

Lemma length_append s t :
  String.length (s +:+ t) = String.length s + String.length t.
Proof. induction s as [|c s IH]; [done|]. rewrite append_cons. simpl. by rewrite IH. Qed.

Lemma substring_0_0 s : String.substring 0 0 s = "".
Proof. by destruct s. Qed.

Lemma substring_all s : String.substring 0 (String.length s) s = s.
Proof. induction s as [|c s IH]; [done|]. simpl. by rewrite IH. Qed.

Lemma substring_prefix s t :
  String.substring 0 (String.length s) (s +:+ t) = s.
Proof.
  induction s as [|c s IH]; [apply substring_0_0|].
  rewrite append_cons. simpl. by rewrite IH.
Qed.

Lemma substring_suffix s t :
  String.substring (String.length s) (String.length t) (s +:+ t) = t.
Proof.
  induction s as [|c s IH]; [apply substring_all|].
  rewrite append_cons. simpl. by rewrite IH.
Qed.

(** [s[:n]] and [s[n:]] split [s] when [n] is within range. *)
Lemma substring_split n s :
  n ≤ String.length s →
  s = String.substring 0 n s +:+ String.substring n (String.length s - n) s
  ∧ String.length (String.substring 0 n s) = n.
Proof.
  revert n. induction s as [|c s IH]; intros n Hn; simpl in *.
  - assert (n = 0) as -> by lia. done.
  - destruct n as [|n]; simpl.
    + split; [|done]. f_equal. by rewrite substring_all.
    + destruct (IH n) as [H1 H2]; [lia|]. rewrite append_cons.
      split; [by rewrite <-H1|by rewrite H2].
Qed.

Lemma sliceTo_append s t : strings.sliceTo (s +:+ t) (Z.of_nat (String.length s)) = s.
Proof. unfold strings.sliceTo. rewrite Nat2Z.id. apply substring_prefix. Qed.

Lemma sliceFrom_append s t :
  strings.sliceFrom (s +:+ t) (Z.of_nat (String.length s)) = t.
Proof.
  unfold strings.sliceFrom. rewrite Nat2Z.id, length_append.
  replace (String.length s + String.length t - String.length s)
    with (String.length t) by lia.
  apply substring_suffix.
Qed.

Lemma prefix_append sub t : String.prefix sub (sub +:+ t) = true.
Proof.
  induction sub as [|c sub IH]; [rewrite append_nil_l; by destruct t|].
  rewrite append_cons. simpl. destruct (ascii_dec c c); [done|congruence].
Qed.

Lemma prefix_split sub s :
  String.prefix sub s = true → ∃ post, s = sub +:+ post.
Proof.
  revert s. induction sub as [|c sub IH]; intros s; simpl.
  - intros _. by exists s.
  - destruct s as [|c' s]; [done|].
    simpl. destruct (ascii_dec c c') as [<-|]; [|done].
    intros [post ->]%IH. by exists post.
Qed.

Lemma IndexFrom_unfold i s sub :
  strings.IndexFrom i s sub
  = if String.prefix sub s then i
    else match s with
         | EmptyString => (-1)%Z
         | String _ t => strings.IndexFrom (i + 1) t sub
         end.
Proof. by destruct s. Qed.

(** [strings.Index] returns the offset of the first occurrence. *)
Lemma IndexFrom_found i s sub r :
  strings.IndexFrom i s sub = r → r ≠ (-1)%Z → (0 ≤ i)%Z →
  ∃ pre post, s = pre +:+ sub +:+ post
              ∧ r = (i + Z.of_nat (String.length pre))%Z
              ∧ (∀ pre' post', s = pre' +:+ sub +:+ post' →
                   String.length pre ≤ String.length pre').
Proof.
  revert i. induction s as [|c s IH]; intros i; rewrite IndexFrom_unfold.
  - destruct (String.prefix sub "") eqn:E; [|intros <- Hne; by destruct Hne].
    intros <- _ _. apply prefix_split in E as [post E].
    exists "", post. repeat split; [done|simpl; lia|simpl; lia].
  - destruct (String.prefix sub (String c s)) eqn:E.
    + intros <- _ _. apply prefix_split in E as [post E].
      exists "", post. repeat split; [done|simpl; lia|simpl; lia].
    + intros Hr Hne Hi.
      destruct (IH _ Hr Hne) as (pre & post & -> & -> & Hmin); [lia|].
      exists (String c pre), post. rewrite append_cons.
      repeat split; [simpl; lia|].
      intros pre' post' Heq. destruct pre' as [|c' pre'].
      * rewrite append_nil_l in Heq.
        rewrite Heq, prefix_append in E. done.
      * rewrite append_cons in Heq. injection Heq as <- Heq.
        simpl. apply Hmin in Heq. lia.
Qed.


Lemma Index_range s sub : (-1 ≤ strings.Index s sub ≤ Z.of_nat (String.length s))%Z.
Proof.
  destruct (decide (strings.Index s sub = (-1)%Z)) as [->|Hne]; [lia|].
  destruct (IndexFrom_found 0 s sub _ eq_refl Hne) as (pre & post & -> & H & _);
    [lia|].
  unfold strings.Index. rewrite H, !length_append. lia.
Qed.

End string_facts.

(** ** Fields and expressions *)

Section fields.

Lemma FieldsFuncGo_cons f skip sep cur c t :
  strings.FieldsFuncGo f skip sep cur (String c t)
  = match skip with
    | S k =>
      if sep then strings.FieldsFuncGo f k sep cur t
      else strings.FieldsFuncGo f k sep (strings.snoc cur c) t
    | O =>
      let '(r, size) := utf8.DecodeRuneInString (String c t) in
      if f r
      then strings.flush cur ++ strings.FieldsFuncGo f (size - 1) true EmptyString t
      else strings.FieldsFuncGo f (size - 1) false (strings.snoc cur c) t
    end.
Proof. reflexivity. Qed.

Lemma flush_nonempty cur : Forall (λ x, x ≠ EmptyString) (strings.flush cur).
Proof. destruct cur; repeat constructor. done. Qed.

(** [FieldsFunc] returns no empty field. *)
Lemma FieldsFuncGo_nonempty f skip sep cur s :
  Forall (λ x, x ≠ EmptyString) (strings.FieldsFuncGo f skip sep cur s).
Proof.
  revert skip sep cur. induction s as [|c t IH]; intros skip sep cur.
  - apply flush_nonempty.
  - rewrite FieldsFuncGo_cons. destruct skip as [|k].
    + destruct (utf8.DecodeRuneInString (String c t)) as [r size].
      destruct (f r); [|apply IH].
      apply Forall_app. split; [apply flush_nonempty|apply IH].
    + destruct sep; apply IH.
Qed.

Lemma FieldsFunc_nonempty s f x : x ∈ strings.FieldsFunc s f → x ≠ EmptyString.
Proof.
  intros Hx. pose proof (FieldsFuncGo_nonempty f 0 false EmptyString s) as H.
  rewrite Forall_forall in H. by apply H.
Qed.

End fields.

Section regexp_facts.

Variable cls : ascii → bool.

Lemma allOf_append s t : allOf cls (s +:+ t) = allOf cls s && allOf cls t.
Proof.
  induction s as [|c s IH]; [done|].
  rewrite append_cons. simpl. by rewrite IH, andb_assoc.
Qed.

Lemma containsRun_cons n c s : containsRun cls n s → containsRun cls n (String c s).
Proof.
  intros (pre & run & post & -> & Hl & Ha).
  exists (String c pre), run, post. by rewrite append_cons.
Qed.

Lemma classRun_spec n left s :
  left ≤ n → 0 < n →
  regexp.classRun cls n left s = true ↔
    (∃ run post, s = run +:+ post ∧ String.length run = left
                 ∧ allOf cls run = true)
    ∨ containsRun cls n s.
Proof.
  intros Hle Hn. revert left Hle.
  induction s as [|c t IH]; intros left Hle.
  - destruct left as [|l]; simpl.
    + split; [|done]. intros _. left. by exists EmptyString, EmptyString.
    + split; [done|]. intros [(run & post & Heq & Hl & _)|(pre & run & post & Heq & Hl & _)].
      * destruct run; [done|]. by rewrite append_cons in Heq.
      * destruct pre; [|by rewrite append_cons in Heq].
        rewrite append_nil_l in Heq.
        destruct run; [simpl in Hl; lia|by rewrite append_cons in Heq].
  - destruct left as [|l]; simpl.
    + split; [|done]. intros _. left. by exists EmptyString, (String c t).
    + destruct (cls c) eqn:Hc.
      * rewrite IH by lia. split.
        -- intros [(run & post & -> & Hl & Ha)|H].
           ++ left. exists (String c run), post. rewrite append_cons. simpl.
              by rewrite Hc, Hl, Ha.
           ++ right. by apply containsRun_cons.
        -- intros [(run & post & Heq & Hl & Ha)|(pre & run & post & Heq & Hl & Ha)].
           ++ destruct run as [|c' run]; [done|].
              rewrite append_cons in Heq. injection Heq as <- ->.
              simpl in Hl, Ha. apply andb_true_iff in Ha as [_ Ha].
              left. exists run, post. by split; [|split; [lia|]].
           ++ destruct pre as [|c' pre].
              ** rewrite append_nil_l in Heq.
                 destruct run as [|c' run]; [simpl in Hl; lia|].
                 rewrite append_cons in Heq. injection Heq as <- ->.
                 simpl in Hl, Ha. apply andb_true_iff in Ha as [_ Ha].
                 destruct (substring_split l run) as [Hsplit Hlen]; [lia|].
                 left. exists (String.substring 0 l run),
                   (String.substring l (String.length run - l) run +:+ post).
                 rewrite <-append_assoc, <-Hsplit. split; [done|]. split; [done|].
                 rewrite Hsplit, allOf_append in Ha.
                 by apply andb_true_iff in Ha as [Ha _].
              ** rewrite append_cons in Heq. injection Heq as <- ->.
                 right. by exists pre, run, post.
      * rewrite IH by lia. split.
        -- intros [(run & post & -> & Hl & Ha)|H].
           ++ right. apply containsRun_cons. by exists EmptyString, run, post.
           ++ right. by apply containsRun_cons.
        -- intros [(run & post & Heq & Hl & Ha)|(pre & run & post & Heq & Hl & Ha)].
           ++ destruct run as [|c' run]; [done|].
              rewrite append_cons in Heq. injection Heq as <- ->.
              simpl in Ha. by rewrite Hc in Ha.
           ++ destruct pre as [|c' pre].
              ** rewrite append_nil_l in Heq.
                 destruct run as [|c' run]; [simpl in Hl; lia|].
                 rewrite append_cons in Heq. injection Heq as <- ->.
                 simpl in Ha. by rewrite Hc in Ha.
              ** rewrite append_cons in Heq. injection Heq as <- ->.
                 right. by exists pre, run, post.
Qed.

End regexp_facts.

(** [regexp.Match] with [`[0-9a-f]{40}`] holds of the inputs that contain
    forty consecutive lowercase hexadecimal digits, wherever they are. *)
Lemma MatchHex40_containsRun b :
  regexp.MatchHex40 b = true ↔ containsRun regexp.isLowerHex 40 b.
Proof.
  unfold regexp.MatchHex40. rewrite classRun_spec by lia. split; [|by right].
  intros [(run & post & -> & Hl & Ha)|H]; [|done].
  by exists EmptyString, run, post.
Qed.

Lemma containsRun_length cls n s : containsRun cls n s → n ≤ String.length s.
Proof. intros (pre & run & post & -> & <- & _). rewrite !length_append. lia. Qed.

(** ** Manifest parsers *)

Section parsers.

Implicit Types (text name commit version : string) (rest tail : list string).
Implicit Types (err : option error) (deps : list dependency).

Lemma Fields_nonempty_line ln x l :
  strings.Fields ln = x :: l → (ln =? "")%string = false.
Proof. destruct ln; [done|]. intros _. reflexivity. Qed.

Lemma vendorConfLoop_cons text rest err deps :
  vendorConfLoop (text :: rest) err deps
  = let ln := sanitizeLine text "#" in
    if (ln =? "")%string then vendorConfLoop rest err deps
    else
      let parts := strings.Fields ln in
      if negb (length parts =? 2)%nat && negb (length parts =? 3)%nat
      then Err (ErrInvalidConfigFormat ln)
      else
        let cloneURL :=
          if (length parts =? 3)%nat then at_ parts 2
          else "git://" +:+ at_ parts 0 in
        let commitOrVersion := at_ parts 1 in
        let commitOrVersion :=
          if regexp.MatchHex40 commitOrVersion
          then strings.sliceTo commitOrVersion 12
          else commitOrVersion in
        vendorConfLoop rest err
          (deps ++ [dependency.mk (at_ parts 0) commitOrVersion cloneURL ""]).
Proof. reflexivity. Qed.

Lemma goModLoop_cons text rest err foundRequire deps :
  goModLoop (text :: rest) err foundRequire deps
  = let ln := sanitizeLine text "//" in
    if (ln =? "")%string then goModLoop rest err foundRequire deps
    else
      let parts := strings.Fields ln in
      let numParts := length parts in
      if negb foundRequire && (numParts =? 2)%nat then
        if (at_ parts 0 =? "require")%string && (at_ parts 1 =? "(")%string
        then goModLoop rest err true deps
        else goModLoop rest err foundRequire deps
      else if negb (numParts =? 2)%nat then
        if (numParts =? 1)%nat && (at_ parts 0 =? ")")%string
        then Ok deps
        else Err (ErrInvalidConfigFormat ln)
      else
        let commitOrVersion := getCommitOrVersion (at_ parts 1) in
        if (commitOrVersion =? "")%string
        then Err (ErrPoorlyFormattedVersion (at_ parts 1))
        else
          goModLoop rest err foundRequire
            (deps ++ [dependency.mk (at_ parts 0) commitOrVersion
                        ("git://" +:+ at_ parts 0) ""]).
Proof. reflexivity. Qed.

(** What a well-formed vendor.conf line adds to [deps]. *)
Lemma vendorConfLoop_line text rest err deps name commit tail :
  strings.Fields (sanitizeLine text "#") = name :: commit :: tail →
  length tail ≤ 1 →
  vendorConfLoop (text :: rest) err deps
  = vendorConfLoop rest err
      (deps ++ [dependency.mk name
                  (if regexp.MatchHex40 commit
                   then strings.sliceTo commit 12 else commit)
                  (match tail with
                   | [] => "git://" +:+ name
                   | cloneURL :: _ => cloneURL
                   end) ""]).
Proof.
  intros Hf Ht. rewrite vendorConfLoop_cons. cbv zeta.
  rewrite (Fields_nonempty_line _ _ _ Hf), Hf.
  destruct tail as [|url [|? ?]]; [done|done|simpl in Ht; lia].
Qed.

(** The rule of the commit column as the code has it: a field that
    contains forty consecutive lowercase hexadecimal digits is cut to its
    first 12 bytes, any other field is kept. *)
Lemma vendorConf_commit_rule commit :
  let parsed := if regexp.MatchHex40 commit
                then strings.sliceTo commit 12 else commit in
  (containsRun regexp.isLowerHex 40 commit →
     ∃ post, commit = parsed +:+ post ∧ String.length parsed = 12)
  ∧ (¬ containsRun regexp.isLowerHex 40 commit → parsed = commit)
  ∧ (is40Hex commit = true → containsRun regexp.isLowerHex 40 commit).
Proof.
  intros parsed. subst parsed. repeat split.
  - intros H. pose proof (containsRun_length _ _ _ H) as Hlen.
    apply MatchHex40_containsRun in H. rewrite H.
    destruct (substring_split 12 commit) as [Hs Hl]; [lia|].
    eexists. split; [exact Hs|exact Hl].
  - intros H. destruct (regexp.MatchHex40 commit) eqn:E; [|done].
    by apply MatchHex40_containsRun in E.
  - unfold is40Hex. intros [Hl Ha]%andb_true_iff. apply Nat.eqb_eq in Hl.
    exists EmptyString, commit, EmptyString.
    by rewrite append_nil_l, append_nil_r.
Qed.

Lemma sliceTo_length s i :
  (0 ≤ i ≤ Z.of_nat (String.length s))%Z →
  String.length (strings.sliceTo s i) = Z.to_nat i.
Proof.
  intros Hi. unfold strings.sliceTo.
  by destruct (substring_split (Z.to_nat i) s) as [_ ->]; [lia|].
Qed.

Lemma getCommitOrVersion_cut version :
  length (strings.FieldsFunc version isDash) = 1
  ∨ length (strings.FieldsFunc version isDash) = 2 →
  getCommitOrVersion version
  = if (0 <? strings.Index version "+incompatible")%Z
    then strings.sliceTo version (strings.Index version "+incompatible")
    else version.
Proof. unfold getCommitOrVersion. by intros [-> | ->]. Qed.

Lemma getCommitOrVersion_third version :
  length (strings.FieldsFunc version isDash) = 3 →
  ∃ commit, strings.FieldsFunc version isDash !! 2 = Some commit
            ∧ getCommitOrVersion version = commit
            ∧ commit ≠ EmptyString.
Proof.
  intros Hl. unfold getCommitOrVersion. rewrite Hl. simpl.
  pose proof (FieldsFunc_nonempty version isDash) as Hne.
  destruct (strings.FieldsFunc version isDash) as [|a [|b [|c [|? ?]]]];
    try done.
  exists c. repeat split. apply Hne. set_solver.
Qed.

Lemma getCommitOrVersion_other version :
  length (strings.FieldsFunc version isDash) ≠ 1 →
  length (strings.FieldsFunc version isDash) ≠ 2 →
  length (strings.FieldsFunc version isDash) ≠ 3 →
  getCommitOrVersion version = EmptyString.
Proof.
  intros H1 H2 H3. unfold getCommitOrVersion.
  apply Nat.eqb_neq in H1, H2, H3. by rewrite H1, H2, H3.
Qed.

Lemma goModLoop_entry text rest err deps name version :
  strings.Fields (sanitizeLine text "//") = [name; version] →
  goModLoop (text :: rest) err true deps
  = if (getCommitOrVersion version =? "")%string
    then Err (ErrPoorlyFormattedVersion version)
    else goModLoop rest err true
           (deps ++ [dependency.mk name (getCommitOrVersion version)
                       ("git://" +:+ name) ""]).
Proof.
  intros Hf. rewrite goModLoop_cons. cbv zeta.
  by rewrite (Fields_nonempty_line _ _ _ Hf), Hf.
Qed.

(** Before [require (]: an empty line and a line of two fields are
    passed over, the marker line opens the block, and a line with any
    other number of fields is handled as if the block were open. *)
Lemma goModLoop_skips_empty text rest err foundRequire deps :
  sanitizeLine text "//" = EmptyString →
  goModLoop (text :: rest) err foundRequire deps
  = goModLoop rest err foundRequire deps.
Proof. intros H. rewrite goModLoop_cons. cbv zeta. by rewrite H. Qed.

Lemma goModLoop_before_require_two text rest err deps a b :
  strings.Fields (sanitizeLine text "//") = [a; b] →
  goModLoop (text :: rest) err false deps
  = goModLoop rest err
      ((a =? "require")%string && (b =? "(")%string) deps.
Proof.
  intros Hf. rewrite goModLoop_cons. cbv zeta.
  rewrite (Fields_nonempty_line _ _ _ Hf), Hf. simpl.
  by destruct (_ && _).
Qed.

Lemma goModLoop_before_require_other text rest err deps parts :
  strings.Fields (sanitizeLine text "//") = parts →
  parts ≠ [] → length parts ≠ 2 →
  goModLoop (text :: rest) err false deps
  = if decide (parts = [")"]) then Ok deps
    else Err (ErrInvalidConfigFormat (sanitizeLine text "//")).
Proof.
  intros Hf Hne Hl. rewrite goModLoop_cons. cbv zeta.
  destruct parts as [|x parts]; [done|].
  rewrite (Fields_nonempty_line _ _ _ Hf), Hf.
  apply Nat.eqb_neq in Hl. rewrite Hl.
  cbn [negb andb]. unfold at_.
  destruct parts as [|y parts]; cbn [length nth Nat.eqb andb].
  - destruct (String.eqb_spec x ")") as [->|Hx].
    + by rewrite decide_True.
    + rewrite decide_False; [done|]. by intros [= ->].
  - by rewrite decide_False.
Qed.

(** C4, amended: inside the require block, a version field with exactly
    three dash-separated fields gives its third field as the commit.  One
    with one or two such fields gives the whole field when
    [+incompatible] does not occur in it or occurs at its start, and
    otherwise the text before the first occurrence of [+incompatible]; so
    a [+incompatible] suffix that is the first occurrence, after a
    non-empty text, is stripped.  Any other number of dash-separated
    fields ends the parse with an error that names the version field. *)
Theorem goMod_version_commit text rest err deps name version :
  strings.Fields (sanitizeLine text "//") = [name; version] →
  (length (strings.FieldsFunc version isDash) = 3 →
     ∃ commit,
       strings.FieldsFunc version isDash !! 2 = Some commit
       ∧ goModLoop (text :: rest) err true deps
         = goModLoop rest err true
             (deps ++ [dependency.mk name commit ("git://" +:+ name) ""]))
  ∧ (length (strings.FieldsFunc version isDash) = 1
     ∨ length (strings.FieldsFunc version isDash) = 2 →
     ∃ commit,
       goModLoop (text :: rest) err true deps
       = goModLoop rest err true
           (deps ++ [dependency.mk name commit ("git://" +:+ name) ""])
       ∧ ((strings.Index version "+incompatible" ≤ 0)%Z → commit = version)
       ∧ ((0 < strings.Index version "+incompatible")%Z →
            ∃ post,
              version = commit +:+ "+incompatible" +:+ post
              ∧ ∀ pre' post', version = pre' +:+ "+incompatible" +:+ post' →
                              String.length commit ≤ String.length pre')
       ∧ (∀ base, version = base +:+ "+incompatible" → base ≠ EmptyString →
            strings.Index version "+incompatible"
            = Z.of_nat (String.length base) →
            commit = base))
  ∧ (length (strings.FieldsFunc version isDash) ≠ 1 →
     length (strings.FieldsFunc version isDash) ≠ 2 →
     length (strings.FieldsFunc version isDash) ≠ 3 →
     goModLoop (text :: rest) err true deps
     = Err (ErrPoorlyFormattedVersion version)
     ∧ Error (ErrPoorlyFormattedVersion version)
       = "invalid go.mod file, poorly formatted version in requires section "
           +:+ version).
Proof.
  intros Hf. rewrite (goModLoop_entry _ _ _ _ _ _ Hf). split; [|split].
  - intros H3. destruct (getCommitOrVersion_third _ H3) as (c & Hc & -> & Hne).
    exists c. split; [done|]. by apply String.eqb_neq in Hne as ->.
  - intros H12. rewrite (getCommitOrVersion_cut _ H12).
    pose proof (Index_range version "+incompatible") as Hr.
    destruct (Z.ltb_spec 0 (strings.Index version "+incompatible")) as [Hpos|Hle].
    + exists (strings.sliceTo version (strings.Index version "+incompatible")).
      assert (strings.sliceTo version (strings.Index version "+incompatible")
              ≠ EmptyString) as Hne.
      { intros E. apply (f_equal String.length) in E.
        rewrite sliceTo_length in E by lia. simpl in E. lia. }
      apply String.eqb_neq in Hne as ->. split; [done|].
      split; [intros; lia|]. split.
      * intros _.
        destruct (IndexFrom_found 0 version "+incompatible" _ eq_refl)
          as (pre & post & Hv & Hi & Hmin); [unfold strings.Index in Hpos; lia|lia|].
        fold (strings.Index version "+incompatible") in Hi.
        rewrite Z.add_0_l in Hi. exists post. rewrite Hi.
        assert (strings.sliceTo version (Z.of_nat (String.length pre)) = pre)
          as -> by (rewrite Hv at 1; apply sliceTo_append).
        done.
      * intros base Hv Hne' Hi. rewrite Hi, Hv. apply sliceTo_append.
    + exists version.
      assert (version ≠ EmptyString) as Hne.
      { intros ->. by destruct H12. }
      apply String.eqb_neq in Hne as ->. split; [done|].
      split; [done|]. split; [intros; lia|].
      intros base Hv Hne' Hi. rewrite Hi in Hle. destruct base; [done|].
      simpl in Hle. lia.
  - intros Hn1 Hn2 Hn3. by rewrite (getCommitOrVersion_other _ Hn1 Hn2 Hn3).
Qed.

End parsers.

Lemma goMod_version_commit_witness :
  strings.Fields (sanitizeLine exampleGoModLine "//")
  = ["github.com/a/b"; "v2.0.0+incompatible"]
  ∧ length (strings.FieldsFunc "v2.0.0+incompatible" isDash) = 1
  ∧ ∃ commit,
      goModLoop [exampleGoModLine] None true []
      = goModLoop [] None true
          [dependency.mk "github.com/a/b" commit "git://github.com/a/b" ""]
      ∧ commit = "v2.0.0".
Proof.
  assert (strings.Fields (sanitizeLine exampleGoModLine "//")
          = ["github.com/a/b"; "v2.0.0+incompatible"]) as Hf by (by vm_compute).
  assert (length (strings.FieldsFunc "v2.0.0+incompatible" isDash) = 1) as Hl
    by (by vm_compute).
  split; [exact Hf|]. split; [exact Hl|].
  destruct (proj1 (proj2 (goMod_version_commit _ [] None [] _ _ Hf)) (or_introl Hl))
    as (commit & Hrun & _ & _ & Hbase).
  exists commit. split; [exact Hrun|].
  apply (Hbase "v2.0.0"); [reflexivity|discriminate|reflexivity].
Defined.

(** C4 as stated fails: here the version field has two dash-separated
    fields and no [+incompatible] suffix, so the claim gives the whole
    field as the commit; the code cuts it at [+incompatible]. *)
Lemma goMod_version_commit_counterexample :
  length (strings.FieldsFunc "v1.0.0+incompatible-rc1" isDash) = 2
  ∧ stripSuffix "+incompatible" "v1.0.0+incompatible-rc1"
    = "v1.0.0+incompatible-rc1"
  ∧ parseGoModDependencies
      ("require (" +:+ LF +:+ TAB +:+ "github.com/a/b v1.0.0+incompatible-rc1"
         +:+ LF +:+ ")" +:+ LF)
    = Ok [dependency.mk "github.com/a/b" "v1.0.0" "git://github.com/a/b" ""]
  ∧ "v1.0.0" ≠ stripSuffix "+incompatible" "v1.0.0+incompatible-rc1".
Proof. by vm_compute. Qed.

(** ** Links, changelog *)

Section githubPRLink.

Implicit Types (repo commit pr rest : string).

Lemma prefix_nil s : String.prefix EmptyString s = true.
Proof. by destruct s. Qed.

Lemma digitRun_append pr rest :
  allOf regexp.isDigit pr = true →
  regexp.digitRun (pr +:+ rest) = String.length pr + regexp.digitRun rest.
Proof.
  induction pr as [|c pr IH]; [done|]. rewrite append_cons. simpl.
  intros [-> H]%andb_true_iff. by rewrite IH.
Qed.

Lemma Index_hash_mergePR pr :
  strings.Index (regexp.mergePRLiteral +:+ pr) "#" = 19%Z.
Proof.
  unfold strings.Index, regexp.mergePRLiteral.
  repeat rewrite append_cons. rewrite append_nil_l.
  cbn. by rewrite prefix_nil.
Qed.

Lemma sliceTo_hash_mergePR pr :
  strings.sliceTo (regexp.mergePRLiteral +:+ pr) 19 = "Merge pull request ".
Proof.
  unfold strings.sliceTo, regexp.mergePRLiteral.
  repeat rewrite append_cons. rewrite append_nil_l.
  cbn. by destruct pr.
Qed.

Lemma sliceFrom_hash_mergePR pr :
  strings.sliceFrom (regexp.mergePRLiteral +:+ pr) (19 + 1) = pr.
Proof.
  change (19 + 1)%Z with (Z.of_nat (String.length regexp.mergePRLiteral)).
  apply sliceFrom_append.
Qed.

Lemma FindMergePR_match pr rest :
  pr ≠ EmptyString → allOf regexp.isDigit pr = true → regexp.digitRun rest = 0 →
  regexp.FindMergePR (regexp.mergePRLiteral +:+ pr +:+ rest)
  = Some (String.length (regexp.mergePRLiteral +:+ pr)).
Proof.
  intros Hne Hd Hrest. unfold regexp.FindMergePR.
  rewrite prefix_append, sliceFrom_append, digitRun_append, Hrest by done.
  destruct pr as [|c pr]; [done|]. rewrite length_append. simpl.
  do 2 f_equal. lia.
Qed.

(** What the rewriter does with a description the expression matches:
    the text before [#] is kept, then come a space and the link. *)
Lemma githubPRLink_match repo commit pr rest :
  pr ≠ EmptyString → allOf regexp.isDigit pr = true → regexp.digitRun rest = 0 →
  githubPRLink repo
    (change.mk commit ("Merge pull request #" +:+ pr +:+ rest))
  = Ok ("Merge pull request " +:+ " [#" +:+ pr +:+ "](https://github.com/"
          +:+ repo +:+ "/pull/" +:+ pr +:+ ")" +:+ rest).
Proof.
  intros Hne Hd Hrest. unfold githubPRLink, regexp.ReplaceAllStringFunc. simpl.
  change "Merge pull request #" with regexp.mergePRLiteral.
  rewrite (FindMergePR_match _ _ Hne Hd Hrest).
  rewrite <-(append_assoc regexp.mergePRLiteral pr rest).
  rewrite sliceTo_append, sliceFrom_append.
  rewrite Index_hash_mergePR, sliceTo_hash_mergePR, sliceFrom_hash_mergePR.
  f_equal. by rewrite !append_assoc.
Qed.

(** A description the expression does not match is returned as it is. *)
Lemma githubPRLink_no_match repo c :
  regexp.FindMergePR (change.Description c) = None →
  githubPRLink repo c = Ok (change.Description c).
Proof. intros H. unfold githubPRLink, regexp.ReplaceAllStringFunc. by rewrite H. Qed.

End githubPRLink.

(** C1: at the description of the claim the rewriter puts two spaces
    before the link: the text before [#] ends in a space and the format
    string adds another.  The claim's text has one. *)
Theorem githubPRLink_doubles_space (commit : string) :
  githubPRLink "org/proj" (change.mk commit "Merge pull request #42 from foo/bar")
  = Ok "Merge pull request  [#42](https://github.com/org/proj/pull/42) from foo/bar"
  ∧ githubPRLink "org/proj" (change.mk commit "Merge pull request #42 from foo/bar")
    ≠ Ok "Merge pull request [#42](https://github.com/org/proj/pull/42) from foo/bar".
Proof. split; [reflexivity|discriminate]. Qed.

(** C2: lines before [require (] that do not have exactly two fields are
    not ignored.  A four-field [replace] line fails the parse; a line [)]
    ends it, and the requirements that follow are lost.  Without those
    lines the same inputs parse. *)
Theorem goMod_lines_before_require_not_ignored :
  parseGoModDependencies
    ("module example.com/m" +:+ LF +:+ LF
       +:+ "replace example.com/a => example.com/b" +:+ LF +:+ LF
       +:+ "require (" +:+ LF
       +:+ TAB +:+ "example.com/c v1.2.3" +:+ LF
       +:+ ")" +:+ LF)
  = Err (ErrInvalidConfigFormat "replace example.com/a => example.com/b")
  ∧ parseGoModDependencies
      ("module example.com/m" +:+ LF
         +:+ ")" +:+ LF
         +:+ "require (" +:+ LF
         +:+ TAB +:+ "example.com/c v1.2.3" +:+ LF
         +:+ ")" +:+ LF)
    = Ok []
  ∧ parseGoModDependencies
      ("module example.com/m" +:+ LF +:+ LF
         +:+ "require (" +:+ LF
         +:+ TAB +:+ "example.com/c v1.2.3" +:+ LF
         +:+ ")" +:+ LF)
    = Ok [dependency.mk "example.com/c" "v1.2.3" "git://example.com/c" ""].
Proof. by vm_compute. Qed.

(** C3: a commit field that is not a 40-character hexadecimal string but
    contains one is cut to its first 12 bytes as well: the expression is
    not anchored. *)
Theorem vendorConf_truncates_longer_field :
  is40Hex "v1.0.0-0123456789abcdef0123456789abcdef01234567" = false
  ∧ parseVendorConfDependencies
      ("example.com/a v1.0.0-0123456789abcdef0123456789abcdef01234567" +:+ LF)
    = Ok [dependency.mk "example.com/a" "v1.0.0-01234" "git://example.com/a" ""]
  ∧ "v1.0.0-01234" ≠ "v1.0.0-0123456789abcdef0123456789abcdef01234567"
  ∧ parseVendorConfDependencies
      ("example.com/a 0123456789abcdef0123456789abcdef01234567" +:+ LF)
    = Ok [dependency.mk "example.com/a" "0123456789ab" "git://example.com/a" ""].
Proof. by vm_compute. Qed.

Section parseChangelog.

Lemma changelogLoop_lines toks err changes :
  Forall (λ text, strings.Fields text ≠ []) toks →
  ∃ parsed,
    Forall2 (λ text ch, ∃ commit tail,
               strings.Fields text = commit :: tail
               ∧ ch = change.mk commit (strings.Join tail " ")) toks parsed
    ∧ changelogLoop toks err changes
      = match err with
        | Some e => Err e
        | None => Ok (changes ++ parsed)
        end.
Proof.
  intros H. revert changes. induction H as [|text rest Hx _ IH]; intros changes.
  - exists []. split; [constructor|]. simpl. by rewrite app_nil_r.
  - simpl. destruct (strings.Fields text) as [|commit tail] eqn:E; [done|].
    destruct (IH (changes ++ [change.mk commit (strings.Join tail " ")]))
      as (parsed & HF & ->).
    exists (change.mk commit (strings.Join tail " ") :: parsed). split.
    + constructor; [|done]. by exists commit, tail.
    + destruct err; [done|]. by rewrite <-app_assoc.
Qed.

End parseChangelog.

(** C10: the two-line log of the specification parses into its two
    changes, but a line without fields, empty or blank, is not rejected
    with an error: [fields[1:]] is evaluated on the empty slice and the
    call panics with the run-time error of a slice expression out of
    bounds. *)
Theorem parseChangelog_panics_on_empty_line :
  parseChangelog ("abc123 Fix bug" +:+ LF +:+ "def456 Add feature")
  = Ok [change.mk "abc123" "Fix bug"; change.mk "def456" "Add feature"]
  ∧ parseChangelog ("abc123 Fix bug" +:+ LF +:+ LF +:+ "def456 Add feature")
    = Panic "runtime error: slice bounds out of range [1:0]"
  ∧ parseChangelog ("abc123 Fix bug" +:+ LF +:+ "  " +:+ LF)
    = Panic "runtime error: slice bounds out of range [1:0]"
  ∧ ∀ e, parseChangelog ("abc123 Fix bug" +:+ LF +:+ LF +:+ "def456 Add feature")
         ≠ Err e.
Proof. by vm_compute. Qed.

(** ** Manifest lookup *)

Section parseDependencies.

Variable p : process.
Variable commit : string.

Lemma ScanLinesFrom_err cur n data :
  (bufio.ScanLinesFrom cur n data).2 = None
  ∨ (bufio.ScanLinesFrom cur n data).2 = Some ErrTooLong.
Proof.
  revert cur n. induction data as [|c t IH]; intros cur n; simpl.
  - destruct (n =? 0)%N; [by left|].
    destruct (bufio.MaxScanTokenSize <=? n)%N; [by right|by left].
  - destruct (c =? "010")%char; [|apply IH].
    destruct (bufio.MaxScanTokenSize <=? n)%N; [by right|].
    specialize (IH EmptyString 0%N).
    by destruct (bufio.ScanLinesFrom EmptyString 0 t).
Qed.

Lemma vendorConfLoop_error toks err deps e :
  (∀ e', err = Some e' → isParseError e') →
  vendorConfLoop toks err deps = Err e → isParseError e.
Proof.
  intros Herr. revert deps.
  induction toks as [|text rest IH]; intros deps; simpl.
  - destruct err as [e'|]; [|done]. intros [= <-]. by apply Herr.
  - destruct (_ =? "")%string; [apply IH|].
    destruct (_ && _); [by intros [= <-]|apply IH].
Qed.

Lemma goModLoop_error toks err foundRequire deps e :
  (∀ e', err = Some e' → isParseError e') →
  goModLoop toks err foundRequire deps = Err e → isParseError e.
Proof.
  intros Herr. revert foundRequire deps.
  induction toks as [|text rest IH]; intros foundRequire deps; simpl.
  - destruct err as [e'|]; [|done]. intros [= <-]. by apply Herr.
  - destruct (_ =? "")%string; [apply IH|].
    destruct (negb foundRequire && _).
    { destruct (_ && _); apply IH. }
    destruct (negb _).
    { destruct (_ && _); [done|by intros [= <-]]. }
    destruct (_ =? "")%string; [by intros [= <-]|apply IH].
Qed.

Lemma NewScanner_err r e :
  (bufio.NewScanner r).2 = Some e → isParseError e.
Proof.
  unfold bufio.NewScanner.
  destruct (ScanLinesFrom_err EmptyString 0 r) as [-> | ->]; [done|].
  by intros [= <-].
Qed.

Lemma parseVendorConfDependencies_error r e :
  parseVendorConfDependencies r = Err e → isParseError e.
Proof.
  unfold parseVendorConfDependencies.
  pose proof (NewScanner_err r) as H.
  destruct (bufio.NewScanner r) as [toks err].
  apply vendorConfLoop_error. intros e' ->. by apply H.
Qed.

Lemma parseGoModDependencies_error r e :
  parseGoModDependencies r = Err e → isParseError e.
Proof.
  unfold parseGoModDependencies.
  pose proof (NewScanner_err r) as H.
  destruct (bufio.NewScanner r) as [toks err].
  apply goModLoop_error. intros e' ->. by apply H.
Qed.

Lemma fileFromRev_run file tr :
  fileFromRev p commit file tr
  = (lookupOutcome p commit file, tr ++ [lookupCommand p commit file]).
Proof.
  unfold lookupOutcome, lookupCommand, fileFromRev, git.
  by destruct (CombinedOutput p _) as [o [e|]].
Qed.

Lemma lookupOutcome_cases file :
  (∃ rd, lookupOutcome p commit file = Ok rd)
  ∨ (∃ err o, lookupOutcome p commit file = Err (ErrGit err o)).
Proof.
  unfold lookupOutcome, fileFromRev, git.
  destruct (CombinedOutput p _) as [o [e|]]; simpl; eauto.
Qed.

(** C9: [parseDependencies] looks [vendor.conf] up first and runs the
    [go.mod] lookup only after that one failed.  Its result is the
    vendor.conf parse when the first lookup succeeds, the go.mod parse
    when only the second succeeds, and otherwise one error whose text
    holds the texts of both lookup errors; that error is returned exactly
    when both lookups fail, and a lookup error is never returned as
    such. *)
Theorem parseDependencies_fallback (tr : list (list string)) :
  (∀ file, (∃ rd, lookupOutcome p commit file = Ok rd)
           ∨ (∃ err o, lookupOutcome p commit file = Err (ErrGit err o)))
  ∧ (∀ rd, lookupOutcome p commit vendorConf = Ok rd →
       parseDependencies p commit tr
       = (parseVendorConfDependencies rd,
          tr ++ [lookupCommand p commit vendorConf]))
  ∧ (∀ err rd,
       lookupOutcome p commit vendorConf = Err err →
       lookupOutcome p commit goMod = Ok rd →
       parseDependencies p commit tr
       = (parseGoModDependencies rd,
          tr ++ [lookupCommand p commit vendorConf; lookupCommand p commit goMod]))
  ∧ (∀ err err2,
       lookupOutcome p commit vendorConf = Err err →
       lookupOutcome p commit goMod = Err err2 →
       parseDependencies p commit tr
       = (Err (ErrNoDepFile err err2),
          tr ++ [lookupCommand p commit vendorConf; lookupCommand p commit goMod])
       ∧ Error (ErrNoDepFile err err2)
         = "finding current dep file failed. vendor.conf error: " +:+ Error err
             +:+ ", go.mod error: " +:+ Error err2)
  ∧ (∀ err err2,
       (parseDependencies p commit tr).1 = Err (ErrNoDepFile err err2)
       ↔ lookupOutcome p commit vendorConf = Err err
         ∧ lookupOutcome p commit goMod = Err err2)
  ∧ (∀ err o, (parseDependencies p commit tr).1 ≠ Err (ErrGit err o)).
Proof.
  assert (∀ rd, lookupOutcome p commit vendorConf = Ok rd →
       parseDependencies p commit tr
       = (parseVendorConfDependencies rd,
          tr ++ [lookupCommand p commit vendorConf])) as HA.
  { intros rd H. unfold parseDependencies, exec_bind.
    by rewrite fileFromRev_run, H. }
  assert (∀ err rd,
       lookupOutcome p commit vendorConf = Err err →
       lookupOutcome p commit goMod = Ok rd →
       parseDependencies p commit tr
       = (parseGoModDependencies rd,
          tr ++ [lookupCommand p commit vendorConf; lookupCommand p commit goMod]))
    as HB.
  { intros err rd H1 H2. unfold parseDependencies, exec_bind.
    rewrite fileFromRev_run, H1, fileFromRev_run, H2. unfold exec_ret.
    by rewrite <-app_assoc. }
  assert (∀ err err2,
       lookupOutcome p commit vendorConf = Err err →
       lookupOutcome p commit goMod = Err err2 →
       parseDependencies p commit tr
       = (Err (ErrNoDepFile err err2),
          tr ++ [lookupCommand p commit vendorConf; lookupCommand p commit goMod]))
    as HC.
  { intros err err2 H1 H2. unfold parseDependencies, exec_bind.
    rewrite fileFromRev_run, H1, fileFromRev_run, H2. unfold exec_ret.
    by rewrite <-app_assoc. }
  split; [apply lookupOutcome_cases|].
  split; [exact HA|]. split; [exact HB|].
  split; [intros err err2 H1 H2; split; [by apply HC|done]|].
  split.
  - intros err err2. split.
    + destruct (lookupOutcome_cases vendorConf) as [[rd H1]|(e1 & o1 & H1)].
      { rewrite (HA _ H1). simpl. by intros ?%parseVendorConfDependencies_error. }
      destruct (lookupOutcome_cases goMod) as [[rd H2]|(e2 & o2 & H2)].
      { rewrite (HB _ _ H1 H2). simpl. by intros ?%parseGoModDependencies_error. }
      rewrite (HC _ _ H1 H2). simpl. intros [= <- <-]. by rewrite H1, H2.
    + intros [H1 H2]. by rewrite (HC _ _ H1 H2).
  - intros err o.
    destruct (lookupOutcome_cases vendorConf) as [[rd H1]|(e1 & o1 & H1)].
    { rewrite (HA _ H1). simpl. by intros ?%parseVendorConfDependencies_error. }
    destruct (lookupOutcome_cases goMod) as [[rd H2]|(e2 & o2 & H2)].
    { rewrite (HB _ _ H1 H2). simpl. by intros ?%parseGoModDependencies_error. }
    by rewrite (HC _ _ H1 H2).
Qed.

End parseDependencies.

Lemma parseDependencies_fallback_witness :
  lookupOutcome exampleRepo "v1.0.0" vendorConf
  = Err (ErrGit "exit status 128"
           "fatal: path 'vendor.conf' does not exist in 'v1.0.0'")
  ∧ lookupOutcome exampleRepo "v1.0.0" goMod
    = Ok ("module example.com/m" +:+ LF +:+ "require (" +:+ LF
            +:+ TAB +:+ "example.com/c v1.2.3" +:+ LF +:+ ")" +:+ LF)
  ∧ parseDependencies exampleRepo "v1.0.0" []
    = (Ok [dependency.mk "example.com/c" "v1.2.3" "git://example.com/c" ""],
       [["show"; "v1.0.0:vendor.conf"]; ["show"; "v1.0.0:go.mod"]]).
Proof.
  assert (lookupOutcome exampleRepo "v1.0.0" vendorConf
          = Err (ErrGit "exit status 128"
                   "fatal: path 'vendor.conf' does not exist in 'v1.0.0'"))
    as H1 by (by vm_compute).
  assert (lookupOutcome exampleRepo "v1.0.0" goMod
          = Ok ("module example.com/m" +:+ LF +:+ "require (" +:+ LF
                  +:+ TAB +:+ "example.com/c v1.2.3" +:+ LF +:+ ")" +:+ LF))
    as H2 by (by vm_compute).
  split; [exact H1|]. split; [exact H2|].
  rewrite (proj1 (proj2 (proj2 (parseDependencies_fallback exampleRepo "v1.0.0" [])))
             _ _ H1 H2).
  by vm_compute.
Defined.

(** ** Renames *)

Section renameDependencies.

Implicit Types (deps : list dependency) (renames : gmap string projectRename).
Implicit Types (order : list (string * projectRename)).
Implicit Types (renameMap : gmap string (string * string)).

(** An entry of [renameMap] comes from an entry of the range, or was in
    the map before. *)
Lemma renameMapOf_foldl_Some order renameMap old updated :
  foldl (λ renameMap sr,
           <[projectRename.Old sr.2 := (sr.1, projectRename.New sr.2)]> renameMap)
        renameMap order !! old = Some updated →
  (∃ sr, sr ∈ order ∧ projectRename.Old sr.2 = old
         ∧ updated = (sr.1, projectRename.New sr.2))
  ∨ renameMap !! old = Some updated.
Proof.
  revert renameMap. induction order as [|sr order IH]; intros renameMap; simpl.
  - by right.
  - intros [(sr' & Hin & Ho & Hu)|H]%IH.
    + left. exists sr'. split; [by right|done].
    + destruct (decide (projectRename.Old sr.2 = old)) as [E|E].
      * subst old. rewrite lookup_insert_eq in H. injection H as <-.
        left. exists sr. split; [left|done].
      * rewrite lookup_insert_ne in H by done. by right.
Qed.

Lemma renameMapOf_foldl_None order renameMap old :
  foldl (λ renameMap sr,
           <[projectRename.Old sr.2 := (sr.1, projectRename.New sr.2)]> renameMap)
        renameMap order !! old = None →
  ∀ sr, sr ∈ order → projectRename.Old sr.2 ≠ old.
Proof.
  revert renameMap. induction order as [|sr order IH]; intros renameMap; simpl.
  - intros _ sr H. by apply elem_of_nil in H.
  - intros H sr' [->|Hin]%elem_of_cons; [|by eapply IH].
    intros E.
    assert (is_Some (foldl (λ renameMap sr,
           <[projectRename.Old sr.2 := (sr.1, projectRename.New sr.2)]> renameMap)
        (<[projectRename.Old sr.2 := (sr.1, projectRename.New sr.2)]> renameMap)
        order !! old)) as [x Hx]; [|congruence].
    clear H IH. subst old.
    generalize (sr.1, projectRename.New sr.2). intros v.
    revert renameMap v.
    induction order as [|sr' order IH]; intros renameMap v; simpl.
    + rewrite lookup_insert_eq. eauto.
    + destruct (decide (projectRename.Old sr'.2 = projectRename.Old sr.2)) as [E|E].
      * rewrite E, insert_insert_eq. apply IH.
      * rewrite insert_insert_ne by done. apply IH.
Qed.

Lemma renameLoop_length renameMap deps :
  length (renameLoop renameMap deps) = length deps.
Proof.
  induction deps as [|d deps IH]; simpl; [done|].
  destruct (renameMap !! dependency.Name d); simpl; by rewrite IH.
Qed.

Lemma renameLoop_lookup renameMap deps i :
  renameLoop renameMap deps !! i
  = (λ d, match renameMap !! dependency.Name d with
          | Some updated => setName d updated.2
          | None => d
          end) <$> deps !! i.
Proof.
  revert i. induction deps as [|d deps IH]; intros i; simpl; [done|].
  destruct i as [|i]; simpl.
  - by destruct (renameMap !! dependency.Name d).
  - rewrite <-IH. by destruct (renameMap !! dependency.Name d).
Qed.

(** C7: [renameDependencies] keeps the length and the order of the list
    and the [Commit], [CloneURL] and [Previous] of every entry.  An entry
    whose [Name] is the [Old] of some rename gets the [New] of such a
    rename as its [Name]; an entry whose [Name] is the [Old] of no rename
    is unchanged.  With an empty rename table the list is unchanged. *)
Theorem renameDependencies_frame deps renames deps' :
  renameDependencies_runs deps renames deps' →
  length deps' = length deps
  ∧ (∀ i d, deps !! i = Some d →
       ∃ d', deps' !! i = Some d'
         ∧ dependency.Commit d' = dependency.Commit d
         ∧ dependency.CloneURL d' = dependency.CloneURL d
         ∧ dependency.Previous d' = dependency.Previous d
         ∧ ((∃ shortname rename,
               renames !! shortname = Some rename
               ∧ projectRename.Old rename = dependency.Name d
               ∧ dependency.Name d' = projectRename.New rename)
            ∨ ((∀ shortname rename,
                  renames !! shortname = Some rename →
                  projectRename.Old rename ≠ dependency.Name d)
               ∧ d' = d)))
  ∧ (renames = ∅ → deps' = deps).
Proof.
  intros (order & Hperm & ->). unfold renameDependenciesIn.
  destruct (size renames =? 0)%nat eqn:Hsz.
  - apply Nat.eqb_eq, map_size_empty_iff in Hsz. subst renames.
    split; [done|]. split; [|done].
    intros i d Hd. exists d. repeat split; [done..|]. right.
    split; [|done]. intros ?? H. by rewrite lookup_empty in H.
  - split; [apply renameLoop_length|]. split.
    + intros i d Hd. rewrite renameLoop_lookup, Hd. simpl.
      destruct (renameMapOf order !! dependency.Name d) as [updated|] eqn:E.
      * eexists. split; [done|]. repeat split; [done..|]. left.
        apply renameMapOf_foldl_Some in E as [(sr & Hin & Ho & ->)|E];
          [|by rewrite lookup_empty in E].
        exists sr.1, sr.2. split; [|done].
        apply elem_of_map_to_list. rewrite <-Hperm. by destruct sr.
      * exists d. repeat split; [done..|]. right. split; [|done].
        intros shortname rename Hr.
        apply (renameMapOf_foldl_None _ _ _ E (shortname, rename)).
        rewrite Hperm. by apply elem_of_map_to_list.
    + intros ->. apply Nat.eqb_neq in Hsz. by rewrite map_size_empty in Hsz.
Qed.

Lemma renameDependencies_frame_witness :
  renameDependencies_runs exampleRenamed exampleRenames
    (renameDependencies exampleRenamed exampleRenames)
  ∧ renameDependencies exampleRenamed exampleRenames
    = [dependency.mk "new/pkg" "v1" "git://old/pkg" "";
       dependency.mk "other/pkg" "v3" "git://other/pkg" ""]
  ∧ length (renameDependencies exampleRenamed exampleRenames)
    = length exampleRenamed.
Proof.
  assert (renameDependencies_runs exampleRenamed exampleRenames
            (renameDependencies exampleRenamed exampleRenames))
    as Hrun by (eexists; split; reflexivity).
  split; [exact Hrun|]. split; [by vm_compute|].
  exact (proj1 (renameDependencies_frame _ _ _ Hrun)).
Defined.

End renameDependencies.

(** ** Dependency diff *)

Section updatedDeps.

Implicit Types (previous deps updated : list dependency).
Implicit Types (pm cm : gmap string dependency).

Lemma updatedDepsStep_emitted pm updated entry :
  updatedDepsStep pm updated entry = updated ++ emitted pm entry.
Proof.
  unfold emitted, updatedDepsStep. destruct entry as [name c].
  destruct (pm !! name) as [d|]; [|done].
  destruct (negb _); [done|]. by rewrite app_nil_r.
Qed.

Lemma foldl_updatedDepsStep pm order updated :
  foldl (updatedDepsStep pm) updated order
  = updated ++ concat (map (emitted pm) order).
Proof.
  revert updated. induction order as [|e order IH]; intros updated; simpl.
  - by rewrite app_nil_r.
  - rewrite IH, updatedDepsStep_emitted. by rewrite <-app_assoc.
Qed.

Lemma toDepMap_foldl_lookup deps (out : gmap string dependency) name :
  foldl (λ out d, <[dependency.Name d := d]> out) out deps !! name
  = match last (filter (λ d, dependency.Name d = name) deps) with
    | Some d => Some d
    | None => out !! name
    end.
Proof.
  revert out. induction deps as [|d deps IH]; intros out; simpl; [done|].
  rewrite IH, filter_cons. case_decide as Hn.
  - rewrite last_cons. destruct (last _); [done|].
    subst name. by rewrite lookup_insert_eq.
  - destruct (last _); [done|]. by rewrite lookup_insert_ne.
Qed.

Lemma toDepMap_lookup deps name :
  toDepMap deps !! name = last (filter (λ d, dependency.Name d = name) deps).
Proof.
  unfold toDepMap. rewrite toDepMap_foldl_lookup, lookup_empty.
  by destruct (last _).
Qed.

Lemma NoDup_names_inj deps d1 d2 :
  NoDup (map dependency.Name deps) →
  d1 ∈ deps → d2 ∈ deps → dependency.Name d1 = dependency.Name d2 → d1 = d2.
Proof.
  induction deps as [|x deps IH]; simpl; intros Hnd H1 H2 Heq.
  - by apply elem_of_nil in H1.
  - inversion_clear Hnd as [|?? Hx Hnd'].
    apply elem_of_cons in H1 as [->|H1]; apply elem_of_cons in H2 as [->|H2];
      [done| | |by apply IH].
    + exfalso. apply Hx. rewrite Heq. by apply (list_elem_of_fmap_2 dependency.Name).
    + exfalso. apply Hx. rewrite <-Heq. by apply (list_elem_of_fmap_2 dependency.Name).
Qed.

(** In a list without duplicate names the lookup finds the list's own
    entries. *)
Lemma toDepMap_lookup_NoDup deps name d :
  NoDup (map dependency.Name deps) →
  toDepMap deps !! name = Some d ↔ d ∈ deps ∧ dependency.Name d = name.
Proof.
  intros Hnd. rewrite toDepMap_lookup. split.
  - intros H%last_Some_elem_of. apply list_elem_of_filter in H. tauto.
  - intros [Hin Hn].
    assert (d ∈ filter (λ d, dependency.Name d = name) deps) as Hf
      by (by apply list_elem_of_filter).
    destruct (last (filter _ deps)) as [x|] eqn:E.
    + f_equal. apply last_Some_elem_of, list_elem_of_filter in E as [Hx Hxin].
      apply (NoDup_names_inj deps); [done..|congruence].
    + apply last_None in E. rewrite E in Hf. by apply elem_of_nil in Hf.
Qed.

Lemma toDepMap_lookup_None deps name :
  toDepMap deps !! name = None ↔ ∀ d, d ∈ deps → dependency.Name d ≠ name.
Proof.
  rewrite toDepMap_lookup, last_None. split.
  - intros E d Hd Hn. eapply (filter_nil_not_elem_of _ _ d); [exact E| |done].
    done.
  - intros H. destruct (filter _ deps) as [|x l] eqn:E; [done|].
    assert (x ∈ filter (λ d, dependency.Name d = name) deps) as Hx
      by (rewrite E; left).
    apply list_elem_of_filter in Hx as [Hn Hx]. by destruct (H x).
Qed.

Lemma updatedDeps_runs_permutation previous deps updated :
  updatedDeps_runs previous deps updated →
  updated ≡ₚ concat (map (emitted (toDepMap previous)) (map_to_list (toDepMap deps))).
Proof.
  intros (order & Hperm & ->). unfold updatedDepsIn.
  rewrite foldl_updatedDepsStep. simpl. by rewrite Hperm.
Qed.

Lemma concat_map_Permutation {A B} (f : A → list B) (l1 l2 : list A) :
  l1 ≡ₚ l2 → concat (map f l1) ≡ₚ concat (map f l2).
Proof.
  induction 1 as [|x l1 l2 _ IH|x y l|l1 l2 l3 _ IH1 _ IH2]; simpl.
  - done.
  - by rewrite IH.
  - by rewrite !app_assoc, (Permutation_app_comm (f y)).
  - by etrans.
Qed.

(** C6: [updatedDeps(X, X)] is empty for every dependency list [X],
    duplicate names included, in every order in which the lookup can be
    ranged over. *)
Theorem updatedDeps_same_is_empty (X updated : list dependency) :
  updatedDeps_runs X X updated → updated = [].
Proof.
  intros H%updatedDeps_runs_permutation.
  apply Permutation_nil_r. rewrite H. clear H.
  assert (∀ e, e ∈ map_to_list (toDepMap X) → emitted (toDepMap X) e = []) as He.
  { intros [name c] Hin%elem_of_map_to_list.
    unfold emitted, updatedDepsStep. rewrite Hin.
    by rewrite String.eqb_refl. }
  induction (map_to_list (toDepMap X)) as [|e l IH]; simpl; [done|].
  rewrite He by left. simpl. apply IH. intros e' He'. apply He. by right.
Qed.

Lemma updatedDeps_same_is_empty_witness :
  updatedDeps_runs exampleDuplicates exampleDuplicates
    (updatedDeps exampleDuplicates exampleDuplicates)
  ∧ updatedDeps exampleDuplicates exampleDuplicates = [].
Proof.
  assert (updatedDeps_runs exampleDuplicates exampleDuplicates
            (updatedDeps exampleDuplicates exampleDuplicates)) as H
    by (eexists; split; reflexivity).
  split; [exact H|]. exact (updatedDeps_same_is_empty _ _ H).
Defined.

Lemma elem_of_concat_emitted pm (l : list (string * dependency)) u :
  u ∈ concat (map (emitted pm) l) ↔ ∃ e, e ∈ l ∧ u ∈ emitted pm e.
Proof.
  induction l as [|e l IH]; simpl.
  - split; [by intros ?%elem_of_nil|]. by intros (? & ?%elem_of_nil & _).
  - rewrite elem_of_app, IH. split.
    + intros [H|(e' & H1 & H2)]; [exists e; split; [left|done]|].
      exists e'. split; [by right|done].
    + intros (e' & [->|H1]%elem_of_cons & H2); [by left|]. right. eauto.
Qed.

Lemma elem_of_emitted pm name c u :
  u ∈ emitted pm (name, c) ↔
    (pm !! name = None ∧ u = c)
    ∨ (∃ d, pm !! name = Some d
            ∧ dependency.Commit d ≠ dependency.Commit c
            ∧ u = setPrevious c (dependency.Commit d)).
Proof.
  unfold emitted, updatedDepsStep. destruct (pm !! name) as [d|]; simpl.
  - destruct (String.eqb_spec (dependency.Commit d) (dependency.Commit c)) as [E|E];
      simpl.
    + split; [by intros ?%elem_of_nil|].
      intros [[? _]|(d' & [= <-] & Hne & _)]; done.
    + rewrite list_elem_of_singleton. split.
      * intros ->. right. eauto.
      * intros [[? _]|(d' & [= <-] & _ & ->)]; done.
  - rewrite list_elem_of_singleton. split; [by left|].
    intros [[_ ->]|(d' & ? & _)]; done.
Qed.

(** C5: for lists with unique names, what [updatedDeps] returns contains,
    whatever the order of the range: every current dependency whose name
    is not in the previous list, as it is; every current dependency whose
    name is in the previous list with another commit, with [Previous] set
    to that commit; and nothing whose name and commit are unchanged.  For
    previous [{A, v1}] and current [{A, v2}, {B, v1}], with [A] and [B]
    two names, the result is [{A, v2, Previous: v1}] and [{B, v1}] in some
    order. *)
Theorem updatedDeps_new_and_changed :
  (∀ previous deps updated : list dependency,
     NoDup (map dependency.Name previous) →
     NoDup (map dependency.Name deps) →
     updatedDeps_runs previous deps updated →
     (∀ u, u ∈ updated ↔
        (u ∈ deps ∧ ∀ p, p ∈ previous → dependency.Name p ≠ dependency.Name u)
        ∨ (∃ c p, c ∈ deps ∧ p ∈ previous
                  ∧ dependency.Name p = dependency.Name c
                  ∧ dependency.Commit p ≠ dependency.Commit c
                  ∧ u = setPrevious c (dependency.Commit p)))
     ∧ (∀ c p, c ∈ deps → p ∈ previous
               → dependency.Name p = dependency.Name c
               → dependency.Commit p = dependency.Commit c
               → ∀ u, u ∈ updated → dependency.Name u ≠ dependency.Name c))
  ∧ (∀ (A B urlA urlA' urlB : string) (updated : list dependency),
       A ≠ B →
       updatedDeps_runs [dependency.mk A "v1" urlA ""]
         [dependency.mk A "v2" urlA' ""; dependency.mk B "v1" urlB ""]
         updated →
       updated ≡ₚ [dependency.mk A "v2" urlA' "v1";
                   dependency.mk B "v1" urlB ""]).
Proof.
  split.
  - intros previous deps updated Hp Hd Hrun.
    apply updatedDeps_runs_permutation in Hrun.
    assert (∀ u, u ∈ updated ↔
        (u ∈ deps ∧ ∀ p, p ∈ previous → dependency.Name p ≠ dependency.Name u)
        ∨ (∃ c p, c ∈ deps ∧ p ∈ previous
                  ∧ dependency.Name p = dependency.Name c
                  ∧ dependency.Commit p ≠ dependency.Commit c
                  ∧ u = setPrevious c (dependency.Commit p))) as Hiff.
    { intros u. rewrite Hrun, elem_of_concat_emitted. split.
      - intros ([name c] & Hin%elem_of_map_to_list & Hu).
        apply (toDepMap_lookup_NoDup _ _ _ Hd) in Hin as [Hc Hn].
        apply elem_of_emitted in Hu as [[Hnone ->]|(d & Hsome & Hne & ->)].
        + left. split; [done|]. intros p Hpin.
          rewrite Hn. by apply (proj1 (toDepMap_lookup_None previous name)).
        + right. apply (toDepMap_lookup_NoDup _ _ _ Hp) in Hsome as [Hdin Hdn].
          exists c, d. repeat split; [done..|congruence|done].
      - intros [[Hu Hnew]|(c & p & Hc & Hpin & Hn & Hne & ->)].
        + exists (dependency.Name u, u). split.
          * apply elem_of_map_to_list. by apply (toDepMap_lookup_NoDup _ _ _ Hd).
          * apply elem_of_emitted. left. split; [|done].
            by apply toDepMap_lookup_None.
        + exists (dependency.Name c, c). split.
          * apply elem_of_map_to_list. by apply (toDepMap_lookup_NoDup _ _ _ Hd).
          * apply elem_of_emitted. right. exists p. split; [|done].
            by apply (toDepMap_lookup_NoDup _ _ _ Hp). }
    split; [exact Hiff|].
    intros c p Hc Hpin Hn Hsame u Hu Hname.
    apply Hiff in Hu as [[Hu Hnew]|(c' & p' & Hc' & Hp' & Hn' & Hne & ->)].
    + apply (Hnew p Hpin). congruence.
    + simpl in Hname.
      assert (c' = c) as -> by (by apply (NoDup_names_inj deps)).
      assert (p' = p) as -> by (apply (NoDup_names_inj previous); [done..|congruence]).
      done.
  - intros A B urlA urlA' urlB updated HAB Hrun%updatedDeps_runs_permutation.
    rewrite Hrun. unfold toDepMap. simpl.
    rewrite (concat_map_Permutation _ _
               [(A, dependency.mk A "v2" urlA' ""); (B, dependency.mk B "v1" urlB "")]).
    + unfold emitted, updatedDepsStep. simpl.
      rewrite lookup_insert_eq, lookup_insert_ne, lookup_empty by done.
      done.
    + rewrite map_to_list_insert
        by (by rewrite lookup_insert_ne, lookup_empty).
      rewrite insert_empty, map_to_list_singleton. apply Permutation_swap.
Qed.

Lemma updatedDeps_new_and_changed_witness :
  NoDup (map dependency.Name examplePrevious)
  ∧ NoDup (map dependency.Name exampleCurrent)
  ∧ updatedDeps_runs examplePrevious exampleCurrent
      (updatedDeps examplePrevious exampleCurrent)
  ∧ (dependency.mk "A" "v2" "git://A" "v1"
       ∈ updatedDeps examplePrevious exampleCurrent
     ↔ (dependency.mk "A" "v2" "git://A" "v1" ∈ exampleCurrent
        ∧ ∀ p, p ∈ examplePrevious → dependency.Name p ≠ "A")
       ∨ (∃ c p, c ∈ exampleCurrent ∧ p ∈ examplePrevious
                 ∧ dependency.Name p = dependency.Name c
                 ∧ dependency.Commit p ≠ dependency.Commit c
                 ∧ dependency.mk "A" "v2" "git://A" "v1"
                   = setPrevious c (dependency.Commit p))).
Proof.
  assert (NoDup (map dependency.Name examplePrevious)) as Hp
    by (apply (bool_decide_unpack _); vm_compute; exact I).
  assert (NoDup (map dependency.Name exampleCurrent)) as Hd
    by (apply (bool_decide_unpack _); vm_compute; exact I).
  assert (updatedDeps_runs examplePrevious exampleCurrent
            (updatedDeps examplePrevious exampleCurrent)) as Hrun
    by (eexists; split; reflexivity).
  split; [exact Hp|]. split; [exact Hd|]. split; [exact Hrun|].
  exact (proj1 (proj1 updatedDeps_new_and_changed _ _ _ Hp Hd Hrun)
           (dependency.mk "A" "v2" "git://A" "v1")).
Defined.

End updatedDeps.

(** ** Contributors *)

Section orderContributors.

Implicit Types (a b : contribstat) (all : list contribstat).
Implicit Types (contributors : gmap contributor Z).

Lemma ltb_false_le (s1 s2 : string) :
  String.ltb s1 s2 = false ↔ String.le s2 s1.
Proof.
  unfold String.le, String.ltb, String.leb.
  rewrite (String.compare_antisym s2 s1).
  destruct (String.compare s1 s2); simpl; split; done.
Qed.

Lemma notAfter_less_ranks a b : sort.notAfter less a b ↔ ranksBefore a b.
Proof.
  unfold sort.notAfter, less, ranksBefore.
  destruct (Z.eqb_spec (contribstat.count b) (contribstat.count a)) as [E|E].
  - rewrite ltb_false_le. split; [intros H; right; by split|].
    intros [H|[_ H]]; [lia|done].
  - rewrite Z.ltb_ge. split; [intros H; left; lia|].
    intros [H|[H _]]; [lia|congruence].
Qed.

Lemma ranksBefore_trans : Transitive ranksBefore.
Proof.
  intros a b c [H1|[E1 L1]] [H2|[E2 L2]]; unfold ranksBefore.
  - left; lia.
  - left; lia.
  - left; lia.
  - right. split; [congruence|by etrans].
Qed.

Lemma ranksBefore_total : Total ranksBefore.
Proof.
  intros a b. unfold ranksBefore.
  destruct (Z.lt_trichotomy (contribstat.count a) (contribstat.count b))
    as [H|[H|H]]; [right; by left| |left; by left].
  destruct (total String.le (contribstat.name a) (contribstat.name b));
    [left|right]; right; by split.
Qed.

Lemma notAfter_less_trans : Transitive (sort.notAfter less).
Proof.
  intros a b c H1%notAfter_less_ranks H2%notAfter_less_ranks.
  apply notAfter_less_ranks. by apply (ranksBefore_trans a b c).
Qed.

Lemma notAfter_less_total : Total (sort.notAfter less).
Proof.
  intros a b. destruct (ranksBefore_total a b); [left|right];
    by apply notAfter_less_ranks.
Qed.

Lemma ranksBefore_key_antisym a b :
  ranksBefore a b → ranksBefore b a → rankKey a = rankKey b.
Proof.
  unfold rankKey. intros [H1|[E1 L1]] [H2|[E2 L2]]; try lia.
  f_equal; [done|]. by apply (anti_symm String.le).
Qed.

Lemma Slice_runs_ranked all all' :
  sort.Slice_runs less all all' → StronglySorted ranksBefore all'.
Proof.
  intros [_ Hs].
  apply (@Sorted_StronglySorted _ _ notAfter_less_trans) in Hs.
  induction Hs as [|x l Hs IH Hx]; constructor; [done|].
  eapply Forall_impl; [exact Hx|]. intros y. apply notAfter_less_ranks.
Qed.

(** Two rankings of the same tallies list the same names: entries that
    [less] cannot tell apart have the same name. *)
Lemma ranked_names_unique all1 all2 :
  all1 ≡ₚ all2 →
  StronglySorted ranksBefore all1 → StronglySorted ranksBefore all2 →
  namesOf all1 = namesOf all2.
Proof.
  intros Hperm H1 H2.
  set (R' := λ k1 k2 : Z * string,
         (k2.1 < k1.1)%Z ∨ (k1.1 = k2.1 ∧ String.le k1.2 k2.2)).
  assert (rankKey <$> all1 = rankKey <$> all2) as Hkeys.
  { apply (StronglySorted_unique_strong R').
    - intros [c1 n1] [c2 n2] _ _ [?|[? ?]] [?|[? ?]]; simpl in *; try lia.
      f_equal; [done|]. by apply (anti_symm String.le).
    - eapply StronglySorted_fmap; [|exact H1]. by intros x y.
    - eapply StronglySorted_fmap; [|exact H2]. by intros x y.
    - by apply fmap_Permutation. }
  unfold namesOf.
  change (map contribstat.name all1) with ((snd ∘ rankKey) <$> all1).
  change (map contribstat.name all2) with ((snd ∘ rankKey) <$> all2).
  by rewrite !list_fmap_compose, Hkeys.
Qed.

Lemma orderContributors_is_run contributors :
  orderContributors_runs contributors (orderContributors contributors).
Proof.
  exists (map_to_list contributors), (sort.Slice less (statsOf (map_to_list contributors))).
  split; [done|]. split; [|done]. split.
  - apply merge_sort_Permutation.
  - apply (@Sorted_merge_sort _ _ _ notAfter_less_total).
Qed.

Lemma orderContributors_runs_unique contributors names1 names2 :
  orderContributors_runs contributors names1 →
  orderContributors_runs contributors names2 →
  names1 = names2.
Proof.
  intros (o1 & all1 & Hp1 & Hs1 & ->) (o2 & all2 & Hp2 & Hs2 & ->).
  apply ranked_names_unique; [|by eapply Slice_runs_ranked..].
  destruct Hs1 as [Hs1 _], Hs2 as [Hs2 _]. rewrite Hs1, Hs2. unfold statsOf.
  apply Permutation_map. by rewrite Hp1, Hp2.
Qed.

(** C8: whatever the order of the range and the outcome of the unstable
    sort, [orderContributors] returns one list of names: the names of the
    tallies ranked by descending count and, for equal counts, ascending
    name, one name per key of the map.  The tallies [{A:3, B:3, C:1}], the
    name of [A] less than that of [B], give the names of [A], [B], [C] in
    this order. *)
Theorem orderContributors_ranking :
  (∀ contributors names,
     orderContributors_runs contributors names →
     names = orderContributors contributors
     ∧ length names = size contributors
     ∧ ∃ all, names = namesOf all
              ∧ all ≡ₚ statsOf (map_to_list contributors)
              ∧ StronglySorted ranksBefore all)
  ∧ (∀ (A B C : contributor) names,
       String.ltb (contributor.name A) (contributor.name B) = true →
       A ≠ C → B ≠ C →
       orderContributors_runs (<[A := 3%Z]> (<[B := 3%Z]> {[C := 1%Z]})) names →
       names = [contributor.name A; contributor.name B; contributor.name C]).
Proof.
  split.
  - intros contributors names Hrun. split.
    { eapply orderContributors_runs_unique; [done|apply orderContributors_is_run]. }
    destruct Hrun as (order & all & Hperm & Hs & ->). split.
    + unfold namesOf. rewrite length_map. destruct Hs as [Hs _].
      rewrite Hs. unfold statsOf. by rewrite length_map, Hperm, length_map_to_list.
    + exists all. split; [done|]. split; [|by eapply Slice_runs_ranked].
      destruct Hs as [Hs _]. rewrite Hs. unfold statsOf. by apply Permutation_map.
  - intros A B C names HAB HAC HBC Hrun.
    assert (A ≠ B) as HAB'.
    { intros ->. unfold String.ltb in HAB.
      pose proof (String.compare_antisym (contributor.name B) (contributor.name B)) as H.
      by destruct (String.compare _ _). }
    eapply orderContributors_runs_unique; [exact Hrun|].
    exists [(A, 3%Z); (B, 3%Z); (C, 1%Z)], (statsOf [(A, 3%Z); (B, 3%Z); (C, 1%Z)]).
    split; [|split; [split|]]; [|done| |done].
    + rewrite map_to_list_insert.
      2:{ rewrite lookup_insert_ne by done. by rewrite lookup_singleton_ne. }
      rewrite map_to_list_insert by (by rewrite lookup_singleton_ne).
      by rewrite map_to_list_singleton.
    + simpl. apply Sorted_cons; [apply Sorted_cons; [by repeat constructor|]|].
      * by repeat constructor.
      * apply HdRel_cons. unfold sort.notAfter, less, String.ltb in *. simpl.
        rewrite (String.compare_antisym (contributor.name B) (contributor.name A)).
        by destruct (String.compare (contributor.name A) (contributor.name B)).
Qed.

Lemma orderContributors_ranking_witness :
  orderContributors_runs exampleContributors
    (orderContributors exampleContributors)
  ∧ orderContributors exampleContributors = ["A"; "B"; "C"]
  ∧ length (orderContributors exampleContributors) = size exampleContributors.
Proof.
  assert (orderContributors_runs exampleContributors
            (orderContributors exampleContributors)) as Hrun.
  { exists (map_to_list exampleContributors),
      (sort.Slice less (statsOf (map_to_list exampleContributors))).
    split; [reflexivity|]. split; [|reflexivity].
    split; [apply merge_sort_Permutation|].
    apply (bool_decide_unpack _). vm_compute. exact I. }
  split; [exact Hrun|]. split; [by vm_compute|].
  exact (proj1 (proj2 (proj1 orderContributors_ranking _ _ Hrun))).
Defined.

End orderContributors.

(** * Further properties *)

(** ** Byte strings, continued *)

Section more_string_facts.

Implicit Types (s t pre post sub d : string) (c : ascii).

Lemma rev_app_append s acc : String.rev_app s acc = String.rev s +:+ acc.
Proof.
  unfold String.rev. revert acc. induction s as [|c s IH]; intros acc; simpl.
  - done.
  - rewrite IH, (IH (String c EmptyString)), append_assoc. done.
Qed.

Lemma rev_cons c s : String.rev (String c s) = String.rev s +:+ String c EmptyString.
Proof. unfold String.rev at 1. simpl. apply rev_app_append. Qed.

Lemma rev_append s t : String.rev (s +:+ t) = String.rev t +:+ String.rev s.
Proof.
  induction s as [|c s IH].
  - by rewrite append_nil_l, append_nil_r.
  - by rewrite append_cons, !rev_cons, IH, append_assoc.
Qed.

Lemma rev_involutive s : String.rev (String.rev s) = s.
Proof.
  induction s as [|c s IH]; [done|].
  by rewrite rev_cons, rev_append, IH.
Qed.






End more_string_facts.

(** ** Line sanitizer *)



(** ** Release tag *)

Section parseTag.

Lemma lastElementRev_no_separator r acc :
  noSeparator r = true → filepath.lastElementRev r acc = String.rev r +:+ acc.
Proof.
  revert acc. induction r as [|c r IH]; intros acc; simpl; [done|].
  intros [Hc Hr]%andb_true_iff. apply negb_true_iff in Hc. rewrite Hc.
  rewrite IH by done. by rewrite rev_cons, append_assoc.
Qed.

Lemma lastElementRev_separator r rest acc :
  noSeparator r = true →
  filepath.lastElementRev (r +:+ String "/" rest) acc = String.rev r +:+ acc.
Proof.
  revert acc. induction r as [|c r IH]; intros acc.
  - intros _. by rewrite append_nil_l.
  - intros [Hc Hr]%andb_true_iff. apply negb_true_iff in Hc.
    rewrite append_cons. simpl. rewrite Hc.
    rewrite IH by done. by rewrite rev_cons, append_assoc.
Qed.

Lemma noSeparator_rev s : noSeparator s = true → noSeparator (String.rev s) = true.
Proof.
  unfold noSeparator. induction s as [|c s IH]; [done|]. simpl.
  intros [Hc Hs]%andb_true_iff. rewrite rev_cons, allOf_append. simpl.
  by rewrite IH, Hc.
Qed.

Lemma noSeparator_append s t :
  noSeparator s = true → noSeparator t = true → noSeparator (s +:+ t) = true.
Proof. unfold noSeparator. intros Hs Ht. by rewrite allOf_append, Hs, Ht. Qed.

Lemma TrimSuffix_append s suffix :
  strings_more.TrimSuffix (s +:+ suffix) suffix = s.
Proof.
  unfold strings_more.TrimSuffix, strings_more.HasSuffix.
  rewrite length_append.
  replace (Z.of_nat (String.length s + String.length suffix)
           - Z.of_nat (String.length suffix))%Z
    with (Z.of_nat (String.length s)) by lia.
  rewrite sliceFrom_append, sliceTo_append, String.eqb_refl.
  by destruct (Nat.leb_spec (String.length suffix)
                 (String.length s + String.length suffix)); [|lia].
Qed.

Lemma stripSeparatorsRev_no_separator x r :
  noSeparator x = true → x ≠ EmptyString →
  filepath.stripSeparatorsRev (x +:+ r) = x +:+ r.
Proof.
  destruct x as [|c x]; [done|]. intros [Hc _]%andb_true_iff _.
  apply negb_true_iff in Hc. rewrite append_cons. simpl. by rewrite Hc.
Qed.

Lemma rev_nonempty s : s ≠ EmptyString → String.rev s ≠ EmptyString.
Proof. intros Hs E. apply Hs. by rewrite <-(rev_involutive s), E. Qed.

Lemma Base_last_element dir name :
  noSeparator name = true → name ≠ EmptyString →
  filepath.Base (dir +:+ "/" +:+ name) = name
  ∧ filepath.Base name = name.
Proof.
  intros Hn Hne. pose proof (noSeparator_rev _ Hn) as Hrn.
  pose proof (rev_nonempty _ Hne) as Hrne.
  apply String.eqb_neq in Hne. unfold filepath.Base. split.
  - assert ((dir +:+ "/" +:+ name =? "")%string = false) as ->.
    { apply String.eqb_neq. intros E. apply (f_equal String.length) in E.
      rewrite !length_append in E. simpl in E. lia. }
    rewrite !rev_append, append_assoc.
    rewrite (stripSeparatorsRev_no_separator (String.rev name)) by done.
    change (String.rev "/") with (String "/" EmptyString).
    rewrite (append_cons "/" EmptyString), append_nil_l.
    rewrite lastElementRev_separator by done.
    by rewrite rev_involutive, append_nil_r, Hne.
  - rewrite Hne. rewrite <-(append_nil_r (String.rev name)).
    rewrite stripSeparatorsRev_no_separator by done.
    rewrite append_nil_r, lastElementRev_no_separator by done.
    by rewrite rev_involutive, append_nil_r, Hne.
Qed.

(** X2: the tag of a release file [<dir>/<tag>.toml], or [<tag>.toml]
    without directory, is [<tag>], for every tag without [/]; the
    directory part and one [.toml] suffix are dropped, nothing else. *)
Theorem parseTag_release_file (dir tag : string) :
  noSeparator tag = true →
  parseTag (dir +:+ "/" +:+ tag +:+ ".toml") = tag
  ∧ parseTag (tag +:+ ".toml") = tag.
Proof.
  intros Ht. unfold parseTag.
  assert (noSeparator (tag +:+ ".toml") = true) as Hn
    by (by apply noSeparator_append).
  assert (tag +:+ ".toml" ≠ EmptyString) as Hne.
  { intros E. apply (f_equal String.length) in E.
    rewrite length_append in E. simpl in E. lia. }
  destruct (Base_last_element dir _ Hn Hne) as [H1 H2].
  rewrite H1, H2. split; apply TrimSuffix_append.
Qed.

Lemma parseTag_release_file_witness :
  noSeparator "v1.4.0-rc.1" = true
  ∧ parseTag "releases/v1.4.0-rc.1.toml" = "v1.4.0-rc.1".
Proof.
  assert (noSeparator "v1.4.0-rc.1" = true) as H by reflexivity.
  split; [exact H|]. exact (proj1 (parseTag_release_file "releases" _ H)).
Defined.

End parseTag.

(** ** Manifest parsers, continued *)

Section more_parsers.

Implicit Types (text name commit version : string) (rest toks : list string).
Implicit Types (err : option error) (deps : list dependency).

Lemma Fields_nonempty_field s x : x ∈ strings.Fields s → x ≠ EmptyString.
Proof. apply FieldsFunc_nonempty. Qed.

Lemma getCommitOrVersion_cut_nonempty version :
  length (strings.FieldsFunc version isDash) = 1
  ∨ length (strings.FieldsFunc version isDash) = 2 →
  getCommitOrVersion version ≠ EmptyString.
Proof.
  intros H12. rewrite (getCommitOrVersion_cut _ H12).
  pose proof (Index_range version "+incompatible") as Hr.
  destruct (Z.ltb_spec 0 (strings.Index version "+incompatible")) as [Hpos|Hle].
  - intros E. apply (f_equal String.length) in E.
    rewrite sliceTo_length in E by lia. simpl in E. lia.
  - intros ->. by destruct H12.
Qed.

(** X3: [getCommitOrVersion] returns the empty string, which the go.mod
    parser reports as a poorly formatted version, exactly for a version
    with no dash-separated field or with more than three. *)
Theorem getCommitOrVersion_empty_iff (cov : string) :
  getCommitOrVersion cov = EmptyString
  ↔ length (strings.FieldsFunc cov isDash) = 0
    ∨ 4 ≤ length (strings.FieldsFunc cov isDash).
Proof.
  split.
  - intros E.
    destruct (decide (length (strings.FieldsFunc cov isDash) = 3)) as [H3|H3].
    { destruct (getCommitOrVersion_third _ H3) as (c & _ & Hc & Hne). congruence. }
    destruct (decide (length (strings.FieldsFunc cov isDash) = 1
                      ∨ length (strings.FieldsFunc cov isDash) = 2)) as [H12|H12].
    { by destruct (getCommitOrVersion_cut_nonempty _ H12). }
    lia.
  - intros H. apply getCommitOrVersion_other; lia.
Qed.

Lemma vendorConf_commit_nonempty commit :
  commit ≠ EmptyString →
  (if regexp.MatchHex40 commit then strings.sliceTo commit 12 else commit)
  ≠ EmptyString.
Proof.
  intros Hne. destruct (regexp.MatchHex40 commit) eqn:E; [|done].
  apply MatchHex40_containsRun, containsRun_length in E.
  intros H. apply (f_equal String.length) in H.
  rewrite sliceTo_length in H by lia. simpl in H. lia.
Qed.

(** A successful run of the vendor.conf loop: the stream ended without
    error and every line with content added its record, in order. *)
Lemma vendorConfLoop_ok toks err deps0 deps :
  vendorConfLoop toks err deps0 = Ok deps →
  err = None
  ∧ ∃ added, deps = deps0 ++ added
             ∧ Forall2 vendorConfRecord (filter (hasContent "#") toks) added.
Proof.
  revert deps0. induction toks as [|text rest IH]; intros deps0.
  - simpl. destruct err; [done|]. intros [= <-]. split; [done|].
    exists []. by rewrite app_nil_r.
  - rewrite vendorConfLoop_cons. cbv zeta. rewrite filter_cons.
    destruct (String.eqb_spec (sanitizeLine text "#") "") as [E|E].
    { rewrite decide_False by (intros H; by apply H). apply IH. }
    rewrite decide_True by done.
    destruct (strings.Fields (sanitizeLine text "#")) as [|name [|commit tail]] eqn:Hf;
      [done..|].
    destruct tail as [|url tail]; [|destruct tail as [|? ?]; [|done]]; simpl.
    + intros (-> & added & -> & HF)%IH. split; [done|].
      eexists (_ :: added). rewrite <-app_assoc. split; [done|].
      constructor; [|done]. exists commit, []. rewrite Hf. simpl.
      repeat split; lia.
    + intros (-> & added & -> & HF)%IH. split; [done|].
      eexists (_ :: added). rewrite <-app_assoc. split; [done|].
      constructor; [|done]. exists commit, [url]. rewrite Hf. simpl.
      repeat split; lia.
Qed.

(** X4: when [parseVendorConfDependencies] succeeds it returns one
    record for each line that is not blank or a comment, in the order of
    the file, built from the two or three fields of that line. *)
Theorem parseVendorConfDependencies_one_per_line (r : string)
    (deps : list dependency) :
  parseVendorConfDependencies r = Ok deps →
  Forall2 vendorConfRecord (filter (hasContent "#") (bufio.NewScanner r).1) deps.
Proof.
  unfold parseVendorConfDependencies.
  destruct (bufio.NewScanner r) as [toks err].
  intros (_ & added & -> & HF)%vendorConfLoop_ok. done.
Qed.

Lemma parseVendorConfDependencies_one_per_line_witness :
  parseVendorConfDependencies
    ("# dependencies" +:+ LF +:+ "example.com/a v1.0.0 https://example.com/a.git"
       +:+ LF +:+ LF +:+ "example.com/b 0123456789abcdef0123456789abcdef01234567 # b")
  = Ok [dependency.mk "example.com/a" "v1.0.0" "https://example.com/a.git" "";
        dependency.mk "example.com/b" "0123456789ab" "git://example.com/b" ""]
  ∧ Forall2 vendorConfRecord
      (filter (hasContent "#")
         (bufio.NewScanner
            ("# dependencies" +:+ LF
               +:+ "example.com/a v1.0.0 https://example.com/a.git"
               +:+ LF +:+ LF
               +:+ "example.com/b 0123456789abcdef0123456789abcdef01234567 # b")).1)
      [dependency.mk "example.com/a" "v1.0.0" "https://example.com/a.git" "";
       dependency.mk "example.com/b" "0123456789ab" "git://example.com/b" ""].
Proof.
  assert (parseVendorConfDependencies
    ("# dependencies" +:+ LF +:+ "example.com/a v1.0.0 https://example.com/a.git"
       +:+ LF +:+ LF +:+ "example.com/b 0123456789abcdef0123456789abcdef01234567 # b")
  = Ok [dependency.mk "example.com/a" "v1.0.0" "https://example.com/a.git" "";
        dependency.mk "example.com/b" "0123456789ab" "git://example.com/b" ""])
    as H by (by vm_compute).
  split; [exact H|]. exact (parseVendorConfDependencies_one_per_line _ _ H).
Defined.

Lemma vendorConf_parsed_fields (r : string)
    (deps : list dependency) (d : dependency) :
  parseVendorConfDependencies r = Ok deps → d ∈ deps →
  dependency.Name d ≠ EmptyString
  ∧ dependency.Commit d ≠ EmptyString
  ∧ dependency.CloneURL d ≠ EmptyString
  ∧ dependency.Previous d = EmptyString.
Proof.
  unfold parseVendorConfDependencies.
  destruct (bufio.NewScanner r) as [toks err].
  intros (_ & added & -> & HF)%vendorConfLoop_ok Hd. simpl in Hd.
  apply list_elem_of_lookup in Hd as [i Hi].
  destruct (Forall2_lookup_r _ _ _ _ _ HF Hi)
    as (text & _ & commit & tail & Hf & Hlen & Hc & Hu & Hp).
  assert (∀ x, x ∈ dependency.Name d :: commit :: tail → x ≠ EmptyString) as Hne.
  { intros x Hx. rewrite <-Hf in Hx. by apply Fields_nonempty_field in Hx. }
  split; [apply Hne; set_solver|].
  split; [rewrite Hc; apply vendorConf_commit_nonempty, Hne; set_solver|].
  split; [|done]. rewrite Hu. destruct tail as [|url tail].
  - by destruct (dependency.Name d).
  - apply Hne. set_solver.
Qed.

(** X5: no record that [parseVendorConfDependencies] returns has an
    empty name, commit or clone URL, and none has a previous commit. *)
Theorem parseVendorConfDependencies_fields_set (r : string)
    (deps : list dependency) (d : dependency) :
  parseVendorConfDependencies r = Ok deps → d ∈ deps →
  dependency.Name d ≠ EmptyString
  ∧ dependency.Commit d ≠ EmptyString
  ∧ dependency.CloneURL d ≠ EmptyString
  ∧ dependency.Previous d = EmptyString.
Proof. apply vendorConf_parsed_fields. Qed.

Lemma parseVendorConfDependencies_fields_set_witness :
  parseVendorConfDependencies ("example.com/a v1.0.0" +:+ LF)
  = Ok [dependency.mk "example.com/a" "v1.0.0" "git://example.com/a" ""]
  ∧ dependency.mk "example.com/a" "v1.0.0" "git://example.com/a" ""
    ∈ [dependency.mk "example.com/a" "v1.0.0" "git://example.com/a" ""]
  ∧ dependency.Commit (dependency.mk "example.com/a" "v1.0.0" "git://example.com/a" "")
    ≠ EmptyString.
Proof.
  assert (parseVendorConfDependencies ("example.com/a v1.0.0" +:+ LF)
          = Ok [dependency.mk "example.com/a" "v1.0.0" "git://example.com/a" ""])
    as H by (by vm_compute).
  assert (dependency.mk "example.com/a" "v1.0.0" "git://example.com/a" ""
    ∈ [dependency.mk "example.com/a" "v1.0.0" "git://example.com/a" ""]) as Hin
    by (left).
  split; [exact H|]. split; [exact Hin|].
  exact (proj1 (proj2 (parseVendorConfDependencies_fields_set _ _ _ H Hin))).
Defined.

(** X6: the first vendor.conf line that has content but neither two nor
    three fields ends the parse with an error that carries the sanitized
    line; the records read so far, the rest of the file and the state of
    the scanner do not matter. *)
Theorem vendorConfLoop_first_bad_line toks text rest err deps :
  Forall vendorConfAccepts toks →
  ¬ vendorConfAccepts text →
  vendorConfLoop (toks ++ text :: rest) err deps
  = Err (ErrInvalidConfigFormat (sanitizeLine text "#")).
Proof.
  intros Hgood Hbad. revert deps.
  induction Hgood as [|t toks Ht _ IH]; intros deps.
  - simpl app. rewrite vendorConfLoop_cons. cbv zeta.
    destruct (String.eqb_spec (sanitizeLine text "#") "") as [E|E];
      [destruct Hbad; by left|].
    destruct (Nat.eqb_spec (length (strings.Fields (sanitizeLine text "#"))) 2)
      as [E2|E2]; [destruct Hbad; right; by left|].
    destruct (Nat.eqb_spec (length (strings.Fields (sanitizeLine text "#"))) 3)
      as [E3|E3]; [destruct Hbad; right; by right|].
    done.
  - simpl app. rewrite vendorConfLoop_cons. cbv zeta.
    destruct (String.eqb_spec (sanitizeLine t "#") "") as [E|E]; [apply IH|].
    destruct Ht as [Ht|Ht]; [done|].
    destruct (Nat.eqb_spec (length (strings.Fields (sanitizeLine t "#"))) 2)
      as [E2|E2]; [apply IH|].
    destruct (Nat.eqb_spec (length (strings.Fields (sanitizeLine t "#"))) 3)
      as [E3|E3]; [apply IH|].
    lia.
Qed.

Lemma vendorConfLoop_first_bad_line_witness :
  Forall vendorConfAccepts ["# deps"; "example.com/a v1.0.0"]
  ∧ ¬ vendorConfAccepts "example.com/b"
  ∧ vendorConfLoop
      (["# deps"; "example.com/a v1.0.0"] ++ "example.com/b" :: ["example.com/c v2"])
      None []
    = Err (ErrInvalidConfigFormat "example.com/b").
Proof.
  assert (Forall vendorConfAccepts ["# deps"; "example.com/a v1.0.0"]) as Hgood.
  { constructor; [left; by vm_compute|].
    constructor; [right; left; by vm_compute|]. constructor. }
  assert (¬ vendorConfAccepts "example.com/b") as Hbad.
  { intros [H|[H|H]]; vm_compute in H; discriminate. }
  split; [exact Hgood|]. split; [exact Hbad|].
  exact (vendorConfLoop_first_bad_line _ _ ["example.com/c v2"] None [] Hgood Hbad).
Defined.

(** A successful run of the go.mod loop adds well-formed records only,
    and none as long as the marker has not been met. *)
Lemma goModLoop_ok toks err foundRequire deps0 deps :
  goModLoop toks err foundRequire deps0 = Ok deps →
  ∃ added, deps = deps0 ++ added
           ∧ Forall goModRecord added
           ∧ (foundRequire = false → Forall (λ t, ¬ isRequireMarker t) toks →
              added = []).
Proof.
  revert foundRequire deps0.
  induction toks as [|text rest IH]; intros foundRequire deps0.
  - simpl. destruct err; [done|]. intros [= <-]. exists [].
    by rewrite app_nil_r.
  - rewrite goModLoop_cons. cbv zeta. unfold at_.
    destruct (String.eqb_spec (sanitizeLine text "//") "") as [E|E].
    { intros (added & -> & HF & Hnone)%IH. exists added.
      split; [done|]. split; [done|]. intros Hfr Hall. apply Hnone; [done|].
      by inversion Hall. }
    destruct (strings.Fields (sanitizeLine text "//")) as [|a [|b [|c l]]] eqn:Hf.
    + simpl. rewrite andb_false_r. simpl. intros [=].
    + simpl. rewrite andb_false_r. simpl.
      destruct (a =? ")")%string; [|intros [=]].
      intros [= <-]. exists []. by rewrite app_nil_r.
    + simpl. destruct foundRequire; simpl.
      * destruct (String.eqb_spec (getCommitOrVersion b) "") as [Eb|Eb];
          [intros [=]|].
        intros (added & -> & HF & _)%IH. eexists (_ :: added).
        rewrite <-app_assoc. split; [done|]. split; [|done].
        constructor; [|done]. repeat split; simpl; [|done].
        apply (Fields_nonempty_field (sanitizeLine text "//")).
        rewrite Hf. left.
      * destruct (String.eqb_spec a "require") as [Ea|Ea];
          [destruct (String.eqb_spec b "(") as [Eb|Eb]|]; simpl.
        -- intros (added & -> & HF & _)%IH. exists added.
           split; [done|]. split; [done|]. intros _ Hall.
           inversion_clear Hall as [|?? Hm _]. destruct Hm.
           unfold isRequireMarker. by rewrite Hf, Ea, Eb.
        -- intros (added & -> & HF & Hnone)%IH. exists added.
           split; [done|]. split; [done|]. intros _ Hall. apply Hnone; [done|].
           by inversion Hall.
        -- intros (added & -> & HF & Hnone)%IH. exists added.
           split; [done|]. split; [done|]. intros _ Hall. apply Hnone; [done|].
           by inversion Hall.
    + simpl. rewrite andb_false_r. simpl. intros [=].
Qed.

(** X7: every record that [parseGoModDependencies] returns has the clone
    URL [git://<name>], no previous commit, and a name and a commit that
    are not empty. *)
Theorem parseGoModDependencies_records (r : string) (deps : list dependency) :
  parseGoModDependencies r = Ok deps → Forall goModRecord deps.
Proof.
  unfold parseGoModDependencies. destruct (bufio.NewScanner r) as [toks err].
  by intros (added & -> & HF & _)%goModLoop_ok.
Qed.

Lemma parseGoModDependencies_records_witness :
  parseGoModDependencies
    ("require (" +:+ LF +:+ TAB +:+ "example.com/c v1.2.3" +:+ LF +:+ ")" +:+ LF)
  = Ok [dependency.mk "example.com/c" "v1.2.3" "git://example.com/c" ""]
  ∧ Forall goModRecord
      [dependency.mk "example.com/c" "v1.2.3" "git://example.com/c" ""].
Proof.
  assert (parseGoModDependencies
    ("require (" +:+ LF +:+ TAB +:+ "example.com/c v1.2.3" +:+ LF +:+ ")" +:+ LF)
  = Ok [dependency.mk "example.com/c" "v1.2.3" "git://example.com/c" ""]) as H
    by (by vm_compute).
  split; [exact H|]. exact (parseGoModDependencies_records _ _ H).
Defined.

(** X8: a go.mod without the line [require (] gives no dependency: the
    parse either fails or returns the empty list.  In particular
    requirements written on single lines, [require <name> <version>], are
    not read. *)
Theorem parseGoModDependencies_needs_marker (r : string)
    (deps : list dependency) :
  Forall (λ t, ¬ isRequireMarker t) (bufio.NewScanner r).1 →
  parseGoModDependencies r = Ok deps → deps = [].
Proof.
  unfold parseGoModDependencies. destruct (bufio.NewScanner r) as [toks err].
  simpl. intros Hall (added & -> & _ & Hnone)%goModLoop_ok.
  by rewrite Hnone.
Qed.

Lemma parseGoModDependencies_needs_marker_witness :
  Forall (λ t, ¬ isRequireMarker t)
    (bufio.NewScanner ("module example.com/m" +:+ LF +:+ "go 1.13" +:+ LF)).1
  ∧ parseGoModDependencies ("module example.com/m" +:+ LF +:+ "go 1.13" +:+ LF)
    = Ok []
  ∧ ∀ deps,
      parseGoModDependencies ("module example.com/m" +:+ LF +:+ "go 1.13" +:+ LF)
      = Ok deps → deps = [].
Proof.
  assert (Forall (λ t, ¬ isRequireMarker t)
    (bufio.NewScanner ("module example.com/m" +:+ LF +:+ "go 1.13" +:+ LF)).1)
    as Hall.
  { change (Forall (λ t, ¬ isRequireMarker t) ["module example.com/m"; "go 1.13"]).
    apply Forall_cons_2. { intros H. vm_compute in H. discriminate. }
    apply Forall_cons_2. { intros H. vm_compute in H. discriminate. }
    apply Forall_nil_2. }
  assert (parseGoModDependencies ("module example.com/m" +:+ LF +:+ "go 1.13" +:+ LF)
          = Ok []) as H by (by vm_compute).
  split; [exact Hall|]. split; [exact H|].
  exact (λ deps, parseGoModDependencies_needs_marker _ deps Hall).
Defined.

(** X9: the parse of go.mod ends at the first line [)]: what follows it
    in the file is not read, and neither its content nor a failure of the
    scanner there changes the result. *)
Theorem goModLoop_stops_at_block_end toks text rest rest' err err'
    foundRequire deps :
  isBlockEnd text →
  goModLoop (toks ++ text :: rest) err foundRequire deps
  = goModLoop (toks ++ text :: rest') err' foundRequire deps.
Proof.
  intros Hend. revert foundRequire deps.
  induction toks as [|t toks IH]; intros foundRequire deps; simpl app;
    rewrite !(goModLoop_cons _ (_ ++ _)) || rewrite !goModLoop_cons; cbv zeta.
  - unfold isBlockEnd in Hend. rewrite Hend.
    destruct (sanitizeLine text "//" =? "")%string eqn:E.
    { apply String.eqb_eq in E. by rewrite E in Hend. }
    simpl. by rewrite andb_false_r.
  - destruct (sanitizeLine t "//" =? "")%string; [apply IH|].
    destruct (negb foundRequire && _).
    { destruct (_ && _); apply IH. }
    destruct (negb _); [done|].
    destruct (_ =? "")%string; [done|apply IH].
Qed.

Lemma goModLoop_stops_at_block_end_witness :
  isBlockEnd ")   // end of requirements"
  ∧ goModLoop (["require ("; "example.com/c v1.2.3"]
                 ++ ")   // end of requirements" :: ["replace a => b"])
      (Some ErrTooLong) false []
    = goModLoop (["require ("; "example.com/c v1.2.3"]
                   ++ ")   // end of requirements" :: [])
        None false [].
Proof.
  assert (isBlockEnd ")   // end of requirements") as H by (by vm_compute).
  split; [exact H|].
  exact (goModLoop_stops_at_block_end _ _ _ _ _ _ _ _ H).
Defined.

End more_parsers.

(** ** Changelog, continued *)

(** X10: a log whose lines all hold at least one field parses into one
    change per line, in order: the commit is the first field of the line,
    the description its other fields joined by single spaces. *)
Theorem parseChangelog_one_per_line (changelog : string) (toks : list string) :
  bufio.NewScanner changelog = (toks, None) →
  Forall (λ text, strings.Fields text ≠ []) toks →
  ∃ changes, parseChangelog changelog = Ok changes
             ∧ Forall2 changelogRecord toks changes.
Proof.
  intros Hscan Hall. unfold parseChangelog. rewrite Hscan.
  destruct (changelogLoop_lines toks None [] Hall) as (parsed & HF & ->).
  exists parsed. split; [done|]. exact HF.
Qed.

Lemma parseChangelog_one_per_line_witness :
  bufio.NewScanner ("abc123 Fix   bug" +:+ LF +:+ "def456 Add feature" +:+ LF)
  = (["abc123 Fix   bug"; "def456 Add feature"], None)
  ∧ Forall (λ text, strings.Fields text ≠ [])
      ["abc123 Fix   bug"; "def456 Add feature"]
  ∧ ∃ changes,
      parseChangelog ("abc123 Fix   bug" +:+ LF +:+ "def456 Add feature" +:+ LF)
      = Ok changes
      ∧ Forall2 changelogRecord ["abc123 Fix   bug"; "def456 Add feature"] changes.
Proof.
  assert (bufio.NewScanner ("abc123 Fix   bug" +:+ LF +:+ "def456 Add feature" +:+ LF)
          = (["abc123 Fix   bug"; "def456 Add feature"], None)) as Hscan
    by (by vm_compute).
  assert (Forall (λ text, strings.Fields text ≠ [])
            ["abc123 Fix   bug"; "def456 Add feature"]) as Hall.
  { apply Forall_cons_2; [by vm_compute|].
    apply Forall_cons_2; [by vm_compute|]. apply Forall_nil_2. }
  split; [exact Hscan|]. split; [exact Hall|].
  exact (parseChangelog_one_per_line _ _ Hscan Hall).
Defined.

(** ** Scanner *)

Section scanner.

Implicit Types (cur line data rest : string) (n : N).

Lemma snoc_append cur c t : strings.snoc cur c +:+ t = cur +:+ String c t.
Proof. unfold strings.snoc. by rewrite append_assoc. Qed.

(** The scan of a first line [line], closed by a line feed: it is a
    token unless [MaxScanTokenSize] bytes or more have been read of it,
    which ends the scan. *)
Lemma ScanLinesFrom_line cur n line rest :
  noLineFeed line = true →
  bufio.ScanLinesFrom cur n (line +:+ String "010" rest)
  = if (bufio.MaxScanTokenSize <=? n + N.of_nat (String.length line))%N
    then ([], Some ErrTooLong)
    else (bufio.dropCR (cur +:+ line) :: (bufio.ScanLinesFrom EmptyString 0 rest).1,
          (bufio.ScanLinesFrom EmptyString 0 rest).2).
Proof.
  revert cur n. induction line as [|c line IH]; intros cur n.
  - intros _. rewrite append_nil_l, append_nil_r, N.add_0_r. simpl.
    destruct (bufio.MaxScanTokenSize <=? n)%N; [done|].
    by destruct (bufio.ScanLinesFrom EmptyString 0 rest).
  - intros [Hc Hl]%andb_true_iff. apply negb_true_iff in Hc.
    rewrite append_cons. simpl bufio.ScanLinesFrom. rewrite Hc, (IH _ _ Hl).
    rewrite snoc_append.
    replace (n + 1 + N.of_nat (String.length line))%N
      with (n + N.of_nat (String.length (String c line)))%N; [done|].
    simpl String.length. lia.
Qed.

(** The scan of a last line that no line feed closes. *)
Lemma ScanLinesFrom_last cur n line :
  noLineFeed line = true →
  bufio.ScanLinesFrom cur n line
  = if (n + N.of_nat (String.length line) =? 0)%N then ([], None)
    else if (bufio.MaxScanTokenSize <=? n + N.of_nat (String.length line))%N
    then ([], Some ErrTooLong)
    else ([bufio.dropCR (cur +:+ line)], None).
Proof.
  revert cur n. induction line as [|c line IH]; intros cur n.
  - intros _. by rewrite append_nil_r, N.add_0_r.
  - intros [Hc Hl]%andb_true_iff. apply negb_true_iff in Hc.
    simpl bufio.ScanLinesFrom. rewrite Hc, (IH _ _ Hl), snoc_append.
    replace (n + 1 + N.of_nat (String.length line))%N
      with (n + N.of_nat (String.length (String c line)))%N; [done|].
    simpl String.length. lia.
Qed.

End scanner.

Lemma noLineFeed_lineOf n c :
  (c =? "010")%char = false → noLineFeed (lineOf n c) = true.
Proof.
  intros Hc. unfold noLineFeed. induction n as [|n IH]; [done|].
  simpl. by rewrite Hc, IH.
Qed.

Lemma length_lineOf n c : String.length (lineOf n c) = n.
Proof. induction n as [|n IH]; [done|]. simpl. by rewrite IH. Qed.

(** X11: a first line of 65536 bytes or more is not parsed: the
    changelog parser and both manifest parsers return [bufio.ErrTooLong],
    whatever follows the line. *)
Theorem parsers_refuse_long_first_line (line rest : string) :
  noLineFeed line = true →
  (65536 ≤ N.of_nat (String.length line))%N →
  parseChangelog (line +:+ LF +:+ rest) = Err ErrTooLong
  ∧ parseVendorConfDependencies (line +:+ LF +:+ rest) = Err ErrTooLong
  ∧ parseGoModDependencies (line +:+ LF +:+ rest) = Err ErrTooLong
  ∧ parseChangelog line = Err ErrTooLong.
Proof.
  intros Hl Hlen.
  assert (bufio.NewScanner (line +:+ LF +:+ rest) = ([], Some ErrTooLong)) as H1.
  { unfold bufio.NewScanner, LF. rewrite append_cons, append_nil_l.
    rewrite ScanLinesFrom_line by done.
    by destruct (N.leb_spec bufio.MaxScanTokenSize (0 + N.of_nat (String.length line)));
      [|unfold bufio.MaxScanTokenSize in *; lia]. }
  assert (bufio.NewScanner line = ([], Some ErrTooLong)) as H2.
  { unfold bufio.NewScanner. rewrite ScanLinesFrom_last by done.
    destruct (N.eqb_spec (0 + N.of_nat (String.length line)) 0); [lia|].
    by destruct (N.leb_spec bufio.MaxScanTokenSize (0 + N.of_nat (String.length line)));
      [|unfold bufio.MaxScanTokenSize in *; lia]. }
  unfold parseChangelog, parseVendorConfDependencies, parseGoModDependencies.
  by rewrite H1, H2.
Qed.

Lemma parsers_refuse_long_first_line_witness :
  noLineFeed exampleLongLine = true
  ∧ (65536 ≤ N.of_nat (String.length exampleLongLine))%N
  ∧ parseChangelog exampleLongLine = Err ErrTooLong.
Proof.
  assert (noLineFeed exampleLongLine = true) as Hl
    by (by apply noLineFeed_lineOf).
  assert (65536 ≤ N.of_nat (String.length exampleLongLine))%N as Hlen
    by (unfold exampleLongLine; rewrite length_lineOf, N2Nat.id; apply N.le_refl).
  split; [exact Hl|]. split; [exact Hlen|].
  exact (proj2 (proj2 (proj2
           (parsers_refuse_long_first_line exampleLongLine EmptyString Hl Hlen)))).
Defined.

(** ** Dependency diff, continued *)

Section more_updatedDeps.

Implicit Types (previous deps updated : list dependency).
Implicit Types (pm cm : gmap string dependency).

Lemma toDepMap_lookup_elem deps name c :
  toDepMap deps !! name = Some c → c ∈ deps ∧ dependency.Name c = name.
Proof.
  rewrite toDepMap_lookup. intros H%last_Some_elem_of.
  apply list_elem_of_filter in H. tauto.
Qed.

(** X12: the name-keyed lookup keeps, for each name, the last entry of
    the list with that name, and has no entry for a name that is not in
    the list. *)
Theorem toDepMap_last_write_wins (deps : list dependency) (name : string) :
  toDepMap deps !! name
  = last (filter (λ d, dependency.Name d = name) deps)
  ∧ (toDepMap deps !! name = None
     ↔ ∀ d, d ∈ deps → dependency.Name d ≠ name)
  ∧ ∀ front d, dependency.Name d = name →
               toDepMap (front ++ [d]) !! name = Some d.
Proof.
  split; [apply toDepMap_lookup|]. split; [apply toDepMap_lookup_None|].
  intros front d Hd. rewrite toDepMap_lookup, filter_app, filter_cons.
  rewrite decide_True by done. by rewrite filter_nil, last_snoc.
Qed.

Lemma emitted_names pm name c u :
  u ∈ emitted pm (name, c) →
  dependency.Name u = dependency.Name c
  ∧ dependency.Commit u = dependency.Commit c
  ∧ dependency.CloneURL u = dependency.CloneURL c.
Proof. intros [[_ ->]|(d & _ & _ & ->)]%elem_of_emitted; done. Qed.

Lemma emitted_names_sublist pm (l : list (string * dependency)) :
  Forall (λ e, dependency.Name e.2 = e.1) l →
  sublist (map dependency.Name (concat (map (emitted pm) l))) (l.*1).
Proof.
  induction 1 as [|[name c] l Hn _ IH]; [done|].
  change (sublist
            (map dependency.Name
               (emitted pm (name, c) ++ concat (map (emitted pm) l)))
            (name :: l.*1)).
  rewrite map_app. simpl in Hn.
  assert (emitted pm (name, c) = [] ∨ ∃ u, emitted pm (name, c) = [u]) as [->|[u Hu]].
  { unfold emitted, updatedDepsStep. destruct (pm !! name); [|right; eauto].
    destruct (negb _); [right; eauto|by left]. }
  - simpl. by apply sublist_cons.
  - rewrite Hu. simpl.
    assert (dependency.Name u = name) as ->.
    { rewrite <-Hn. apply (emitted_names pm name c). rewrite Hu. left. }
    by apply sublist_skip.
Qed.

(** X13: in every run the result of [updatedDeps] holds at most one
    entry per name, and each entry has the name, commit and clone URL of a
    current dependency: a dependency that is only in the previous list is
    never reported. *)
Theorem updatedDeps_from_current previous deps updated :
  updatedDeps_runs previous deps updated →
  NoDup (map dependency.Name updated)
  ∧ ∀ u, u ∈ updated →
         ∃ c, c ∈ deps
              ∧ dependency.Name u = dependency.Name c
              ∧ dependency.Commit u = dependency.Commit c
              ∧ dependency.CloneURL u = dependency.CloneURL c.
Proof.
  intros Hrun%updatedDeps_runs_permutation. split.
  - rewrite Hrun. eapply sublist_NoDup; [|apply emitted_names_sublist].
    + apply NoDup_fst_map_to_list.
    + apply Forall_forall. intros [name c] Hin%elem_of_map_to_list.
      by apply toDepMap_lookup_elem in Hin as [_ ?].
  - intros u Hu. rewrite Hrun in Hu.
    apply elem_of_concat_emitted in Hu as ([name c] & Hin%elem_of_map_to_list & Hu).
    apply toDepMap_lookup_elem in Hin as [Hc _].
    exists c. split; [done|]. exact (emitted_names _ name c u Hu).
Qed.

Lemma updatedDeps_from_current_witness :
  updatedDeps_runs examplePrevious exampleDuplicates
    (updatedDeps examplePrevious exampleDuplicates)
  ∧ NoDup (map dependency.Name (updatedDeps examplePrevious exampleDuplicates))
  ∧ updatedDeps examplePrevious exampleDuplicates
    = [dependency.mk "A" "v2" "git://A" "v1"].
Proof.
  assert (updatedDeps_runs examplePrevious exampleDuplicates
            (updatedDeps examplePrevious exampleDuplicates)) as Hrun
    by (eexists; split; reflexivity).
  split; [exact Hrun|].
  split; [exact (proj1 (updatedDeps_from_current _ _ _ Hrun))|by vm_compute].
Defined.

Lemma map_to_list_toDepMap_NoDup deps :
  NoDup (map dependency.Name deps) →
  map_to_list (toDepMap deps) ≡ₚ map (λ d, (dependency.Name d, d)) deps.
Proof.
  intros Hnd. apply NoDup_Permutation.
  - apply NoDup_map_to_list.
  - apply (NoDup_fmap_1 fst). rewrite <-list_fmap_compose.
    by change (fst ∘ (λ d, (dependency.Name d, d))) with dependency.Name.
  - intros [name c]. rewrite elem_of_map_to_list, (toDepMap_lookup_NoDup _ _ _ Hnd).
    rewrite list_elem_of_fmap. split.
    + intros [Hc <-]. by exists c.
    + by intros (d & [= -> ->] & Hd).
Qed.

(** X14: with an empty previous list every current dependency is
    reported once and as it is (names being unique): the result is the
    current list, in some order. *)
Theorem updatedDeps_all_new deps updated :
  NoDup (map dependency.Name deps) →
  updatedDeps_runs [] deps updated → updated ≡ₚ deps.
Proof.
  intros Hnd Hrun%updatedDeps_runs_permutation. rewrite Hrun.
  rewrite (concat_map_Permutation _ _ _ (map_to_list_toDepMap_NoDup _ Hnd)).
  clear. induction deps as [|d deps IH]; [done|]. simpl.
  unfold emitted at 1, updatedDepsStep, toDepMap. simpl.
  rewrite lookup_empty. simpl. by rewrite IH.
Qed.

Lemma updatedDeps_all_new_witness :
  NoDup (map dependency.Name exampleCurrent)
  ∧ updatedDeps_runs [] exampleCurrent (updatedDeps [] exampleCurrent)
  ∧ updatedDeps [] exampleCurrent ≡ₚ exampleCurrent.
Proof.
  assert (NoDup (map dependency.Name exampleCurrent)) as Hd
    by (apply (bool_decide_unpack _); vm_compute; exact I).
  assert (updatedDeps_runs [] exampleCurrent (updatedDeps [] exampleCurrent))
    as Hrun by (eexists; split; reflexivity).
  split; [exact Hd|]. split; [exact Hrun|].
  exact (updatedDeps_all_new _ _ Hd Hrun).
Defined.

(** X15: two runs of [updatedDeps] on the same lists differ by the
    order of their results only. *)
Theorem updatedDeps_runs_agree previous deps updated1 updated2 :
  updatedDeps_runs previous deps updated1 →
  updatedDeps_runs previous deps updated2 →
  updated1 ≡ₚ updated2.
Proof.
  intros H1%updatedDeps_runs_permutation H2%updatedDeps_runs_permutation.
  by rewrite H1, H2.
Qed.

Lemma updatedDeps_runs_agree_witness :
  updatedDeps_runs examplePrevious exampleCurrent
    (updatedDepsIn [("B", dependency.mk "B" "v1" "git://B" "");
                    ("A", dependency.mk "A" "v2" "git://A" "")] examplePrevious)
  ∧ updatedDeps_runs examplePrevious exampleCurrent
      (updatedDeps examplePrevious exampleCurrent)
  ∧ updatedDepsIn [("B", dependency.mk "B" "v1" "git://B" "");
                   ("A", dependency.mk "A" "v2" "git://A" "")] examplePrevious
    ≡ₚ updatedDeps examplePrevious exampleCurrent.
Proof.
  assert (updatedDeps_runs examplePrevious exampleCurrent
    (updatedDepsIn [("B", dependency.mk "B" "v1" "git://B" "");
                    ("A", dependency.mk "A" "v2" "git://A" "")] examplePrevious))
    as H1.
  { eexists. split; [|reflexivity].
    etrans; [|symmetry; apply map_to_list_toDepMap_NoDup;
               apply (bool_decide_unpack _); vm_compute; exact I].
    apply Permutation_swap. }
  assert (updatedDeps_runs examplePrevious exampleCurrent
            (updatedDeps examplePrevious exampleCurrent)) as H2
    by (eexists; split; reflexivity).
  split; [exact H1|]. split; [exact H2|].
  exact (updatedDeps_runs_agree _ _ _ _ H1 H2).
Defined.

Lemma parsedFrom_fields r deps d :
  parsedFrom r deps → d ∈ deps →
  dependency.Commit d ≠ EmptyString ∧ dependency.Previous d = EmptyString.
Proof.
  intros [H|H] Hd.
  - destruct (vendorConf_parsed_fields _ _ _ H Hd) as (_ & ? & _ & ?). done.
  - unfold parseGoModDependencies in H.
    destruct (bufio.NewScanner r) as [toks err].
    apply goModLoop_ok in H as (added & -> & HF & _).
    rewrite Forall_forall in HF. destruct (HF d Hd) as (_ & ? & _ & ?). done.
Qed.

(** X16: in the diff of two parsed manifests an entry is new, its name
    not being in the previous manifest, exactly when its [Previous] is
    empty; otherwise [Previous] is the commit the previous manifest has for
    that name, and differs from the entry's commit. *)
Theorem updatedDeps_previous_marks_updates r1 r2 previous deps updated u :
  parsedFrom r1 previous → parsedFrom r2 deps →
  updatedDeps_runs previous deps updated → u ∈ updated →
  (dependency.Previous u = EmptyString
   ↔ ∀ p, p ∈ previous → dependency.Name p ≠ dependency.Name u)
  ∧ (dependency.Previous u ≠ EmptyString →
     ∃ p, p ∈ previous
          ∧ dependency.Name p = dependency.Name u
          ∧ dependency.Previous u = dependency.Commit p
          ∧ dependency.Commit p ≠ dependency.Commit u).
Proof.
  intros Hp Hd Hrun%updatedDeps_runs_permutation Hu. rewrite Hrun in Hu.
  apply elem_of_concat_emitted in Hu as ([name c] & Hin%elem_of_map_to_list & Hu).
  apply toDepMap_lookup_elem in Hin as [Hc Hn].
  destruct (parsedFrom_fields _ _ _ Hd Hc) as [_ Hcp].
  apply elem_of_emitted in Hu as [[Hnone ->]|(d & Hsome & Hne & ->)].
  - rewrite Hn. split; [|by rewrite Hcp].
    split; [intros _; by apply toDepMap_lookup_None|done].
  - apply toDepMap_lookup_elem in Hsome as [Hdin Hdn].
    destruct (parsedFrom_fields _ _ _ Hp Hdin) as [Hdc _]. simpl. split.
    + split; [done|]. intros Hall. destruct (Hall d Hdin). congruence.
    + intros _. exists d. split; [done|]. split; [congruence|done].
Qed.

Lemma updatedDeps_previous_marks_updates_witness :
  parsedFrom ("A v1" +:+ LF) [dependency.mk "A" "v1" "git://A" ""]
  ∧ parsedFrom ("A v2" +:+ LF +:+ "B v1" +:+ LF)
      [dependency.mk "A" "v2" "git://A" ""; dependency.mk "B" "v1" "git://B" ""]
  ∧ updatedDeps_runs examplePrevious exampleCurrent
      (updatedDeps examplePrevious exampleCurrent)
  ∧ dependency.mk "B" "v1" "git://B" "" ∈ updatedDeps examplePrevious exampleCurrent
  ∧ (dependency.Previous (dependency.mk "B" "v1" "git://B" "") = EmptyString
     ↔ ∀ p, p ∈ examplePrevious → dependency.Name p ≠ "B").
Proof.
  assert (parsedFrom ("A v1" +:+ LF) examplePrevious) as Hp
    by (left; by vm_compute).
  assert (parsedFrom ("A v2" +:+ LF +:+ "B v1" +:+ LF) exampleCurrent) as Hd
    by (left; by vm_compute).
  assert (updatedDeps_runs examplePrevious exampleCurrent
            (updatedDeps examplePrevious exampleCurrent)) as Hrun
    by (eexists; split; reflexivity).
  assert (dependency.mk "B" "v1" "git://B" ""
            ∈ updatedDeps examplePrevious exampleCurrent) as Hu
    by (apply (bool_decide_unpack _); vm_compute; exact I).
  split; [exact Hp|]. split; [exact Hd|]. split; [exact Hrun|]. split; [exact Hu|].
  exact (proj1 (updatedDeps_previous_marks_updates _ _ _ _ _ _ Hp Hd Hrun Hu)).
Defined.

End more_updatedDeps.

(** ** Renames, continued *)

Section more_renameDependencies.

Implicit Types (deps : list dependency) (renames : gmap string projectRename).
Implicit Types (order : list (string * projectRename)).

Lemma renameMapOf_Some order old updated :
  renameMapOf order !! old = Some updated →
  ∃ sr, sr ∈ order ∧ projectRename.Old sr.2 = old
        ∧ updated.2 = projectRename.New sr.2.
Proof.
  intros [(sr & Hin & Ho & ->)|H]%renameMapOf_foldl_Some;
    [by exists sr|by rewrite lookup_empty in H].
Qed.

Lemma renameLoop_ext (m1 m2 : gmap string (string * string)) deps :
  (∀ old, snd <$> m1 !! old = snd <$> m2 !! old) →
  renameLoop m1 deps = renameLoop m2 deps.
Proof.
  intros Hm. induction deps as [|d deps IH]; simpl; [done|].
  specialize (Hm (dependency.Name d)).
  destruct (m1 !! dependency.Name d) as [u1|], (m2 !! dependency.Name d) as [u2|];
    simplify_eq/=; by rewrite ?IH, ?Hm.
Qed.

(** X17: when the renames that share an [Old] name agree on the [New]
    name, the order in which the rename table is ranged over does not
    matter: every run returns the same list. *)
Theorem renameDependencies_runs_agree deps renames deps1 deps2 :
  (∀ s1 s2 r1 r2,
     renames !! s1 = Some r1 → renames !! s2 = Some r2 →
     projectRename.Old r1 = projectRename.Old r2 →
     projectRename.New r1 = projectRename.New r2) →
  renameDependencies_runs deps renames deps1 →
  renameDependencies_runs deps renames deps2 →
  deps1 = deps2.
Proof.
  intros Hagree (o1 & Hp1 & ->) (o2 & Hp2 & ->). unfold renameDependenciesIn.
  destruct (size renames =? 0)%nat; [done|].
  apply renameLoop_ext. intros old.
  assert (∀ oa ob, oa ≡ₚ map_to_list renames → ob ≡ₚ map_to_list renames →
            ∀ u, renameMapOf oa !! old = Some u →
                 ∃ u', renameMapOf ob !! old = Some u' ∧ u.2 = u'.2) as Hone.
  { intros oa ob Ha Hb u Hu.
    destruct (renameMapOf_Some _ _ _ Hu) as ([s r] & Hin & Ho & Hn).
    destruct (renameMapOf ob !! old) as [u'|] eqn:E.
    - exists u'. split; [done|].
      destruct (renameMapOf_Some _ _ _ E) as ([s' r'] & Hin' & Ho' & Hn').
      rewrite Hn, Hn'. simpl in *.
      rewrite Ha in Hin. rewrite Hb in Hin'.
      apply elem_of_map_to_list in Hin, Hin'.
      apply (Hagree s s' r r' Hin Hin'). congruence.
    - exfalso. apply (renameMapOf_foldl_None _ _ _ E (s, r)); [|done].
      by rewrite Hb, <-Ha. }
  destruct (renameMapOf o1 !! old) as [u1|] eqn:E1.
  - destruct (Hone o1 o2 Hp1 Hp2 u1 E1) as (u2 & -> & Hu). simpl. by rewrite Hu.
  - destruct (renameMapOf o2 !! old) as [u2|] eqn:E2; [|done].
    destruct (Hone o2 o1 Hp2 Hp1 u2 E2) as (u1 & Hu1 & _). congruence.
Qed.

Lemma exampleAliases_list : map_to_list exampleAliases ≡ₚ exampleAliasOrder.
Proof.
  unfold exampleAliases, exampleAliasOrder.
  rewrite map_to_list_insert.
  - rewrite map_to_list_insert by (by apply lookup_singleton_ne).
    by rewrite map_to_list_singleton.
  - apply lookup_insert_None. split; [by apply lookup_singleton_ne|done].
Qed.

Lemma exampleAliases_agree s1 s2 r1 r2 :
  exampleAliases !! s1 = Some r1 → exampleAliases !! s2 = Some r2 →
  projectRename.Old r1 = projectRename.Old r2 →
  projectRename.New r1 = projectRename.New r2.
Proof.
  intros H1 H2.
  apply elem_of_map_to_list in H1, H2.
  rewrite exampleAliases_list in H1, H2. unfold exampleAliasOrder in *.
  rewrite !elem_of_cons, elem_of_nil in H1, H2.
  destruct H1 as [H1|[H1|[H1|[]]]], H2 as [H2|[H2|[H2|[]]]];
    injection H1 as -> ->; injection H2 as -> ->; simpl; congruence.
Qed.

Lemma renameDependencies_runs_agree_witness :
  (∀ s1 s2 r1 r2,
     exampleAliases !! s1 = Some r1 → exampleAliases !! s2 = Some r2 →
     projectRename.Old r1 = projectRename.Old r2 →
     projectRename.New r1 = projectRename.New r2)
  ∧ renameDependencies_runs exampleAliased exampleAliases
      (renameDependenciesIn exampleAliasOrder exampleAliased exampleAliases)
  ∧ renameDependencies_runs exampleAliased exampleAliases
      (renameDependenciesIn (List.rev exampleAliasOrder) exampleAliased exampleAliases)
  ∧ renameDependenciesIn exampleAliasOrder exampleAliased exampleAliases
    = renameDependenciesIn (List.rev exampleAliasOrder) exampleAliased exampleAliases.
Proof.
  assert (renameDependencies_runs exampleAliased exampleAliases
            (renameDependenciesIn exampleAliasOrder exampleAliased exampleAliases))
    as Hrun1.
  { exists exampleAliasOrder. split; [|reflexivity].
    symmetry. exact exampleAliases_list. }
  assert (renameDependencies_runs exampleAliased exampleAliases
            (renameDependenciesIn (List.rev exampleAliasOrder) exampleAliased
               exampleAliases)) as Hrun2.
  { exists (List.rev exampleAliasOrder). split; [|reflexivity].
    etrans; [symmetry; apply Permutation_rev|].
    symmetry. exact exampleAliases_list. }
  split; [exact exampleAliases_agree|]. split; [exact Hrun1|]. split; [exact Hrun2|].
  exact (renameDependencies_runs_agree _ _ _ _ exampleAliases_agree Hrun1 Hrun2).
Defined.

(** X18: two renames of the same [Old] name to different [New] names
    make the result depend on the order of the range: either name can be
    the one a dependency gets. *)
Theorem renameDependencies_shared_old (s1 s2 old new1 new2 : string)
    (d : dependency) :
  s1 ≠ s2 → dependency.Name d = old →
  renameDependencies_runs [d]
    (<[s1 := projectRename.mk old new1]> {[s2 := projectRename.mk old new2]})
    [setName d new1]
  ∧ renameDependencies_runs [d]
      (<[s1 := projectRename.mk old new1]> {[s2 := projectRename.mk old new2]})
      [setName d new2].
Proof.
  intros Hs Hd.
  assert (map_to_list
            (<[s1 := projectRename.mk old new1]>
               ({[s2 := projectRename.mk old new2]} : gmap string projectRename))
          ≡ₚ [(s1, projectRename.mk old new1); (s2, projectRename.mk old new2)])
    as Hl.
  { rewrite map_to_list_insert by (by rewrite lookup_singleton_ne).
    by rewrite map_to_list_singleton. }
  assert (size (<[s1 := projectRename.mk old new1]>
                  ({[s2 := projectRename.mk old new2]} : gmap string projectRename))
          = 2) as Hsz.
  { rewrite map_size_insert_None by (by rewrite lookup_singleton_ne).
    by rewrite map_size_singleton. }
  split.
  - exists [(s2, projectRename.mk old new2); (s1, projectRename.mk old new1)].
    split; [rewrite Hl; apply Permutation_swap|].
    unfold renameDependenciesIn. rewrite Hsz. simpl.
    unfold renameMapOf. simpl. by rewrite Hd, lookup_insert_eq.
  - exists [(s1, projectRename.mk old new1); (s2, projectRename.mk old new2)].
    split; [by rewrite Hl|].
    unfold renameDependenciesIn. rewrite Hsz. simpl.
    unfold renameMapOf. simpl. by rewrite Hd, lookup_insert_eq.
Qed.

Lemma renameDependencies_shared_old_witness :
  "containerd" ≠ "cri"
  ∧ dependency.Name (dependency.mk "old/pkg" "v1" "git://old/pkg" "") = "old/pkg"
  ∧ renameDependencies_runs [dependency.mk "old/pkg" "v1" "git://old/pkg" ""]
      (<[ "containerd" := projectRename.mk "old/pkg" "new/a" ]>
         {[ "cri" := projectRename.mk "old/pkg" "new/b" ]})
      [dependency.mk "new/b" "v1" "git://old/pkg" ""].
Proof.
  assert ("containerd" ≠ "cri") as Hs by discriminate.
  assert (dependency.Name (dependency.mk "old/pkg" "v1" "git://old/pkg" "")
          = "old/pkg") as Hd by reflexivity.
  split; [exact Hs|]. split; [exact Hd|].
  exact (proj2 (renameDependencies_shared_old _ _ _ "new/a" "new/b" _ Hs Hd)).
Defined.

End more_renameDependencies.

(** ** Contributor tallies *)

Section addContributors.

Implicit Types (text email name : string) (toks rest : list string).
Implicit Types (err : option error) (contributors : gmap contributor Z).

Lemma intWrap_range z : (minInt ≤ intWrap z ≤ maxInt)%Z.
Proof.
  unfold intWrap, minInt, maxInt.
  pose proof (Z.mod_pos_bound (z + 2 ^ 63) (2 ^ 64) ltac:(lia)). lia.
Qed.

Lemma intWrap_small z : (minInt ≤ z ≤ maxInt)%Z → intWrap z = z.
Proof.
  unfold intWrap, minInt, maxInt. intros H.
  rewrite Z.mod_small by lia. lia.
Qed.

Lemma intWrap_add_l a b : intWrap (intWrap a + b) = intWrap (a + b).
Proof.
  unfold intWrap.
  replace ((a + 2 ^ 63) mod 2 ^ 64 - 2 ^ 63 + b + 2 ^ 63)%Z
    with ((a + 2 ^ 63) mod 2 ^ 64 + b)%Z by lia.
  rewrite Z.add_mod_idemp_l by lia. do 2 f_equal. lia.
Qed.

Lemma prefix_space_cons c s :
  String.prefix " " (String c s) = (c =? " ")%char.
Proof.
  change (String.prefix " " (String c s))
    with (if ascii_dec " " c then String.prefix EmptyString s else false).
  destruct (ascii_dec " " c) as [<-|Hne].
  - by destruct s.
  - symmetry. apply Ascii.eqb_neq. congruence.
Qed.

Lemma IndexFrom_space i pre post :
  noSpace pre = true →
  strings.IndexFrom i (pre +:+ String " " post) " "
  = (i + Z.of_nat (String.length pre))%Z.
Proof.
  unfold noSpace. revert i. induction pre as [|c pre IH]; intros i.
  - intros _. rewrite append_nil_l, IndexFrom_unfold, prefix_space_cons.
    simpl. lia.
  - intros [Hc Hp]%andb_true_iff. apply negb_true_iff in Hc.
    rewrite append_cons, IndexFrom_unfold, prefix_space_cons, Hc, (IH _ Hp).
    simpl String.length. lia.
Qed.

Lemma IndexFrom_no_space i s :
  noSpace s = true → strings.IndexFrom i s " " = (-1)%Z.
Proof.
  unfold noSpace. revert i. induction s as [|c s IH]; intros i; [done|].
  intros [Hc Hs]%andb_true_iff. apply negb_true_iff in Hc.
  by rewrite IndexFrom_unfold, prefix_space_cons, Hc, (IH _ Hs).
Qed.

Lemma noSpace_false_split s :
  noSpace s = false →
  ∃ pre post, s = pre +:+ String " " post ∧ noSpace pre = true.
Proof.
  unfold noSpace. induction s as [|c s IH]; [done|]. simpl.
  destruct (Ascii.eqb_spec c " ") as [->|Hc]; simpl.
  - intros _. by exists EmptyString, s.
  - intros (pre & post & -> & Hp)%IH. exists (String c pre), post.
    split; [done|]. simpl. rewrite Hp.
    by apply Ascii.eqb_neq in Hc as ->.
Qed.

(** [SplitN(text, " ", 2)] cuts at the first space, and does not cut a
    text without space. *)
Lemma SplitN_space email name :
  noSpace email = true →
  strings_more.SplitN (email +:+ String " " name) " " 2 = [email; name].
Proof.
  intros He. unfold strings_more.SplitN, strings_more.genSplit, strings.Index.
  rewrite (IndexFrom_space 0 _ _ He), Z.add_0_l.
  destruct (Z.ltb_spec (Z.of_nat (String.length email)) 0); [lia|].
  rewrite sliceTo_append.
  change (Z.of_nat (String.length email) + Z.of_nat (String.length " "))%Z
    with (Z.of_nat (String.length email) + 1)%Z.
  replace (Z.of_nat (String.length email) + 1)%Z
    with (Z.of_nat (String.length (email +:+ " "))) by (rewrite length_append; simpl; lia).
  replace (email +:+ String " " name) with ((email +:+ " ") +:+ name)
    by (by rewrite append_assoc).
  by rewrite sliceFrom_append.
Qed.

Lemma SplitN_no_space text :
  noSpace text = true → strings_more.SplitN text " " 2 = [text].
Proof.
  intros Ht. unfold strings_more.SplitN, strings_more.genSplit, strings.Index.
  by rewrite (IndexFrom_no_space 0 _ Ht).
Qed.

Lemma addContributorsLoop_cons text rest err contributors :
  addContributorsLoop (text :: rest) err contributors
  = if negb (length (strings_more.SplitN text " " 2) =? 2)%nat
    then (ErrInvalidAuthorLine text, contributors)
    else addContributorsLoop rest err
           (<[authorOf text := intAdd (tally contributors (authorOf text)) 1]>
              contributors).
Proof. reflexivity. Qed.

Lemma addContributorsLoop_valid text rest err contributors :
  noSpace text = false →
  addContributorsLoop (text :: rest) err contributors
  = addContributorsLoop rest err
      (<[authorOf text := intAdd (tally contributors (authorOf text)) 1]>
         contributors).
Proof.
  intros (email & name & -> & He)%noSpace_false_split.
  by rewrite addContributorsLoop_cons, (SplitN_space _ _ He).
Qed.

(** X19: an author line [<email> <name>] counts one commit for the
    contributor with that e-mail address and that name, which may hold
    spaces; the tally goes up by one unless it is at the largest [int],
    from where it wraps around.  The other tallies are not touched. *)
Theorem addContributorsLoop_counts_line email name rest err contributors :
  noSpace email = true →
  ∃ contributors',
    addContributorsLoop ((email +:+ " " +:+ name) :: rest) err contributors
    = addContributorsLoop rest err contributors'
    ∧ (tally contributors (contributor.mk name email) < maxInt →
       minInt ≤ tally contributors (contributor.mk name email) →
       tally contributors' (contributor.mk name email)
       = tally contributors (contributor.mk name email) + 1)%Z
    ∧ (tally contributors (contributor.mk name email) = maxInt →
       tally contributors' (contributor.mk name email) = minInt)
    ∧ ∀ c, c ≠ contributor.mk name email →
           contributors' !! c = contributors !! c.
Proof.
  intros He.
  assert (authorOf (email +:+ " " +:+ name) = contributor.mk name email) as Ha.
  { unfold authorOf. change (" " +:+ name) with (String " " name).
    by rewrite (SplitN_space _ _ He). }
  exists (<[contributor.mk name email
            := intAdd (tally contributors (contributor.mk name email)) 1]>
            contributors).
  split.
  { rewrite addContributorsLoop_valid, Ha; [done|].
    change (" " +:+ name) with (String " " name).
    unfold noSpace. rewrite allOf_append. simpl. by rewrite andb_false_r. }
  assert (∀ v, tally (<[contributor.mk name email := v]> contributors)
                 (contributor.mk name email) = v) as Hv
    by (intros v; unfold tally; by rewrite lookup_insert_eq).
  rewrite Hv. split; [|split].
  - intros H1 H2. unfold intAdd. apply intWrap_small.
    unfold minInt, maxInt in *. lia.
  - intros ->. by vm_compute.
  - intros c Hc. by rewrite lookup_insert_ne.
Qed.

Lemma addContributorsLoop_counts_line_witness :
  noSpace "jane@example.com" = true
  ∧ ∃ contributors',
      addContributorsLoop ["jane@example.com" +:+ " " +:+ "Jane Q. Doe"] None ∅
      = addContributorsLoop [] None contributors'
      ∧ tally contributors' (contributor.mk "Jane Q. Doe" "jane@example.com") = 1%Z.
Proof.
  assert (noSpace "jane@example.com" = true) as He by reflexivity.
  split; [exact He|].
  destruct (addContributorsLoop_counts_line _ "Jane Q. Doe" [] None ∅ He)
    as (contributors' & Hrun & Hone & _).
  exists contributors'. split; [exact Hrun|].
  apply Hone; by vm_compute.
Defined.

(** X20: a line without a space ends the call with an error that holds
    the line.  The tallies of the lines before it stay in the map: the
    call does not undo them. *)
Theorem addContributorsLoop_invalid_line toks text rest err contributors :
  Forall (λ t, noSpace t = false) toks →
  noSpace text = true →
  addContributorsLoop (toks ++ text :: rest) err contributors
  = (ErrInvalidAuthorLine text, (addContributorsLoop toks None contributors).2).
Proof.
  intros Hgood Hbad. revert contributors.
  induction Hgood as [|t toks Ht _ IH]; intros contributors; simpl app.
  - by rewrite addContributorsLoop_cons, (SplitN_no_space _ Hbad).
  - by rewrite !(addContributorsLoop_valid _ _ _ _ Ht), IH.
Qed.

Lemma addContributorsLoop_invalid_line_witness :
  Forall (λ t, noSpace t = false) ["jane@example.com Jane Doe"]
  ∧ noSpace "warning:" = true
  ∧ ∃ contributors',
      addContributorsLoop (["jane@example.com Jane Doe"] ++ "warning:" :: []) None ∅
      = (ErrInvalidAuthorLine "warning:", contributors')
      ∧ tally contributors' (contributor.mk "Jane Doe" "jane@example.com") = 1%Z.
Proof.
  assert (Forall (λ t, noSpace t = false) ["jane@example.com Jane Doe"]) as Hgood
    by (apply Forall_cons_2; [reflexivity|apply Forall_nil_2]).
  assert (noSpace "warning:" = true) as Hbad by reflexivity.
  split; [exact Hgood|]. split; [exact Hbad|].
  eexists. split.
  - exact (addContributorsLoop_invalid_line _ _ [] None ∅ Hgood Hbad).
  - rewrite addContributorsLoop_valid by reflexivity.
    change (authorOf "jane@example.com Jane Doe")
      with (contributor.mk "Jane Doe" "jane@example.com").
    simpl. unfold tally. by rewrite lookup_insert_eq, lookup_empty.
Defined.

(** X21: when every line holds a space, the loop ends with the state of
    the scanner and the tally of each contributor has grown by the number
    of lines that stand for that contributor, modulo the width of [int]:
    every line is counted once. *)
Theorem addContributorsLoop_tallies toks err contributors (c : contributor) :
  Forall (λ t, noSpace t = false) toks →
  (minInt ≤ tally contributors c ≤ maxInt)%Z →
  (addContributorsLoop toks err contributors).1
  = match err with Some e => AuthorsErr e | None => AuthorsNil end
  ∧ tally (addContributorsLoop toks err contributors).2 c
    = intWrap (tally contributors c
               + Z.of_nat (length (filter (λ t, authorOf t = c) toks))).
Proof.
  intros Hgood. revert contributors.
  induction Hgood as [|t toks Ht _ IH]; intros contributors Hrange.
  - simpl. split; [done|]. rewrite Z.add_0_r. symmetry. by apply intWrap_small.
  - rewrite (addContributorsLoop_valid _ _ _ _ Ht), filter_cons.
    set (contributors' :=
           <[authorOf t := intAdd (tally contributors (authorOf t)) 1]> contributors).
    assert (tally contributors' c
            = if decide (authorOf t = c) then intWrap (tally contributors c + 1)
              else tally contributors c) as Hc.
    { unfold contributors', tally at 1. case_decide as E.
      - subst c. by rewrite lookup_insert_eq.
      - by rewrite lookup_insert_ne. }
    destruct (IH contributors') as [H1 H2].
    { rewrite Hc. case_decide; [apply intWrap_range|done]. }
    split; [done|]. rewrite H2, Hc. case_decide as E.
    + rewrite intWrap_add_l. simpl length. f_equal. lia.
    + done.
Qed.

Lemma addContributorsLoop_tallies_witness :
  Forall (λ t, noSpace t = false)
    ["jane@example.com Jane Doe"; "joe@example.com Joe"; "jane@example.com Jane Doe"]
  ∧ (minInt ≤ tally ∅ (contributor.mk "Jane Doe" "jane@example.com") ≤ maxInt)%Z
  ∧ tally (addContributorsLoop
             ["jane@example.com Jane Doe"; "joe@example.com Joe";
              "jane@example.com Jane Doe"] None ∅).2
      (contributor.mk "Jane Doe" "jane@example.com")
    = 2%Z.
Proof.
  assert (Forall (λ t, noSpace t = false)
    ["jane@example.com Jane Doe"; "joe@example.com Joe"; "jane@example.com Jane Doe"])
    as Hgood by (repeat (apply Forall_cons_2; [reflexivity|]); apply Forall_nil_2).
  assert (minInt ≤ tally ∅ (contributor.mk "Jane Doe" "jane@example.com") ≤ maxInt)%Z
    as Hr by (by vm_compute).
  split; [exact Hgood|]. split; [exact Hr|].
  rewrite (proj2 (addContributorsLoop_tallies _ None _ _ Hgood Hr)).
  by vm_compute.
Defined.

End addContributors.

(** ** Reading the log *)

Section log_readers.

Variable p : process.

Lemma git_run args tr :
  git p args tr
  = (match CombinedOutput p (gitArgsOf p args) with
     | (o, Some e) => Err (ErrGit e o)
     | (o, None) => Ok o
     end, tr ++ [gitArgsOf p args]).
Proof. unfold git. by destruct (CombinedOutput p _) as [o [e|]]. Qed.

(** X22: [changelog] and [addContributors] each run one git command,
    whether it succeeds or not: [git log --oneline] and
    [git log --format=%aE %aN], over [previous..commit], or over [commit]
    alone when [previous] is empty.  When git succeeds its output is what
    [changelog] parses and what [addContributors] tallies; when git fails
    [changelog] returns git's error, whose text is the error of the
    process, a colon and the combined output, and [addContributors]
    returns that error and leaves the tallies as they were. *)
Theorem log_readers_one_command previous commit contributors tr :
  (changelog p previous commit tr).2
  = tr ++ [gitArgsOf p ["log"; "--oneline"; gitChangeDiff previous commit]]
  ∧ (addContributors p previous commit contributors tr).2
    = tr ++ [gitArgsOf p ["log"; "--format=%aE %aN"; gitChangeDiff previous commit]]
  ∧ (∀ o,
       CombinedOutput p
         (gitArgsOf p ["log"; "--oneline"; gitChangeDiff previous commit])
       = (o, None) →
       (changelog p previous commit tr).1 = parseChangelog o)
  ∧ (∀ o e,
       CombinedOutput p
         (gitArgsOf p ["log"; "--oneline"; gitChangeDiff previous commit])
       = (o, Some e) →
       (changelog p previous commit tr).1 = Err (ErrGit e o)
       ∧ Error (ErrGit e o) = e +:+ ": " +:+ o)
  ∧ (∀ o,
       CombinedOutput p
         (gitArgsOf p ["log"; "--format=%aE %aN"; gitChangeDiff previous commit])
       = (o, None) →
       (addContributors p previous commit contributors tr).1
       = addContributorsLoop (bufio.NewScanner o).1 (bufio.NewScanner o).2
           contributors)
  ∧ (∀ o e,
       CombinedOutput p
         (gitArgsOf p ["log"; "--format=%aE %aN"; gitChangeDiff previous commit])
       = (o, Some e) →
       (addContributors p previous commit contributors tr).1
       = (AuthorsErr (ErrGit e o), contributors))
  ∧ gitChangeDiff "" commit = commit
  ∧ (previous ≠ EmptyString →
     gitChangeDiff previous commit = previous +:+ ".." +:+ commit).
Proof.
  unfold changelog, getChangelog, addContributors, exec_bind.
  rewrite !git_run.
  split; [by destruct (CombinedOutput p _) as [o [e|]]|].
  split.
  { destruct (CombinedOutput p _) as [o [e|]]; [done|].
    by destruct (bufio.NewScanner o). }
  split; [by intros o ->|].
  split; [by intros o e ->|].
  split; [intros o ->; by destruct (bufio.NewScanner o)|].
  split; [by intros o e ->|].
  split; [done|].
  intros Hp. unfold gitChangeDiff. by apply String.eqb_neq in Hp as ->.
Qed.

End log_readers.

Lemma log_readers_one_command_witness :
  CombinedOutput exampleLogRepo
    (gitArgsOf exampleLogRepo ["log"; "--oneline"; gitChangeDiff "v1.0.0" "v1.1.0"])
  = ("abc123 Fix bug" +:+ LF +:+ "def456 Add feature" +:+ LF, None)
  ∧ (changelog exampleLogRepo "v1.0.0" "v1.1.0" []).1
    = Ok [change.mk "abc123" "Fix bug"; change.mk "def456" "Add feature"]
  ∧ (changelog exampleLogRepo "v1.0.0" "v1.1.0" []).2
    = [["log"; "--oneline"; "v1.0.0..v1.1.0"]]
  ∧ CombinedOutput exampleBrokenRepo
      (gitArgsOf exampleBrokenRepo ["log"; "--oneline"; gitChangeDiff "v1.0.0" "v1.1.0"])
    = ("fatal: not a git repository", Some "exit status 128")
  ∧ (changelog exampleBrokenRepo "v1.0.0" "v1.1.0" []).1
    = Err (ErrGit "exit status 128" "fatal: not a git repository").
Proof.
  assert (CombinedOutput exampleLogRepo
    (gitArgsOf exampleLogRepo ["log"; "--oneline"; gitChangeDiff "v1.0.0" "v1.1.0"])
  = ("abc123 Fix bug" +:+ LF +:+ "def456 Add feature" +:+ LF, None)) as H1
    by reflexivity.
  assert (CombinedOutput exampleBrokenRepo
      (gitArgsOf exampleBrokenRepo ["log"; "--oneline"; gitChangeDiff "v1.0.0" "v1.1.0"])
    = ("fatal: not a git repository", Some "exit status 128")) as H2 by reflexivity.
  destruct (log_readers_one_command exampleLogRepo "v1.0.0" "v1.1.0" ∅ [])
    as (Htr & _ & Hok & _).
  destruct (log_readers_one_command exampleBrokenRepo "v1.0.0" "v1.1.0" ∅ [])
    as (_ & _ & _ & Hfail & _).
  split; [exact H1|].
  split; [rewrite (Hok _ H1); reflexivity|].
  split; [exact Htr|].
  split; [exact H2|].
  exact (proj1 (Hfail _ _ H2)).
Defined.

(** ** Links, continued *)

Section more_links.

Implicit Types (repo commit pr rest desc : string).

Lemma digitRun_split s :
  ∃ pr rest, s = pr +:+ rest
             ∧ String.length pr = regexp.digitRun s
             ∧ allOf regexp.isDigit pr = true
             ∧ regexp.digitRun rest = 0.
Proof.
  induction s as [|c s IH].
  - by exists EmptyString, EmptyString.
  - simpl. destruct (regexp.isDigit c) eqn:Hc.
    + destruct IH as (pr & rest & -> & Hl & Ha & Hr).
      exists (String c pr), rest.
      split; [done|]. split; [simpl; by rewrite Hl|].
      split; [simpl; by rewrite Hc, Ha|done].
    + exists EmptyString, (String c s). simpl. by rewrite Hc.
Qed.

(** The descriptions the expression matches. *)
Lemma FindMergePR_Some desc n :
  regexp.FindMergePR desc = Some n →
  ∃ pr rest, desc = regexp.mergePRLiteral +:+ pr +:+ rest
             ∧ pr ≠ EmptyString
             ∧ allOf regexp.isDigit pr = true
             ∧ regexp.digitRun rest = 0.
Proof.
  unfold regexp.FindMergePR.
  destruct (String.prefix regexp.mergePRLiteral desc) eqn:E; [|done].
  apply prefix_split in E as [post ->]. rewrite sliceFrom_append.
  destruct (digitRun_split post) as (pr & rest & -> & Hl & Ha & Hr).
  destruct (regexp.digitRun (pr +:+ rest)) as [|d] eqn:Ed; [done|].
  intros _. exists pr, rest. repeat split; [|done..].
  intros ->. simpl in Hl. lia.
Qed.

(** X23: a description that begins with [Merge pull request #] and a
    number is rewritten into the text before [#], a space, and the link
    [[#<number>](https://github.com/<repo>/pull/<number>)]; the number is
    the longest run of digits, and what follows it is kept. *)
Theorem githubPRLink_rewrites_reference repo commit pr rest :
  pr ≠ EmptyString → allOf regexp.isDigit pr = true → regexp.digitRun rest = 0 →
  githubPRLink repo
    (change.mk commit ("Merge pull request #" +:+ pr +:+ rest))
  = Ok ("Merge pull request " +:+ " [#" +:+ pr +:+ "](https://github.com/"
          +:+ repo +:+ "/pull/" +:+ pr +:+ ")" +:+ rest).
Proof. apply githubPRLink_match. Qed.

Lemma githubPRLink_rewrites_reference_witness :
  "1234" ≠ EmptyString
  ∧ allOf regexp.isDigit "1234" = true
  ∧ regexp.digitRun " from user/fix-5678" = 0
  ∧ githubPRLink "containerd/containerd"
      (change.mk "0123abc" ("Merge pull request #" +:+ "1234" +:+ " from user/fix-5678"))
    = Ok ("Merge pull request " +:+ " [#" +:+ "1234" +:+ "](https://github.com/"
            +:+ "containerd/containerd" +:+ "/pull/" +:+ "1234" +:+ ")"
            +:+ " from user/fix-5678").
Proof.
  assert ("1234" ≠ EmptyString) as H1 by discriminate.
  assert (allOf regexp.isDigit "1234" = true) as H2 by reflexivity.
  assert (regexp.digitRun " from user/fix-5678" = 0) as H3 by reflexivity.
  split; [exact H1|]. split; [exact H2|]. split; [exact H3|].
  exact (githubPRLink_rewrites_reference _ _ _ _ H1 H2 H3).
Defined.

(** X24: [githubPRLink] changes a description only if it begins with
    [Merge pull request #] followed by a digit; a reference anywhere else
    in the text is left as it is. *)
Theorem githubPRLink_only_at_start repo (c : change) :
  (∀ pr rest, pr ≠ EmptyString → allOf regexp.isDigit pr = true →
              change.Description c ≠ "Merge pull request #" +:+ pr +:+ rest) →
  githubPRLink repo c = Ok (change.Description c).
Proof.
  intros Hno. apply githubPRLink_no_match.
  destruct (regexp.FindMergePR (change.Description c)) as [n|] eqn:E; [|done].
  destruct (FindMergePR_Some _ _ E) as (pr & rest & Hd & Hne & Ha & _).
  by destruct (Hno pr rest Hne Ha).
Qed.

Lemma githubPRLink_only_at_start_witness :
  (∀ pr rest, pr ≠ EmptyString → allOf regexp.isDigit pr = true →
     change.Description (change.mk "0123abc" "Revert Merge pull request #42")
     ≠ "Merge pull request #" +:+ pr +:+ rest)
  ∧ githubPRLink "org/proj" (change.mk "0123abc" "Revert Merge pull request #42")
    = Ok "Revert Merge pull request #42".
Proof.
  assert (∀ pr rest, pr ≠ EmptyString → allOf regexp.isDigit pr = true →
     change.Description (change.mk "0123abc" "Revert Merge pull request #42")
     ≠ "Merge pull request #" +:+ pr +:+ rest) as H.
  { intros pr rest _ _ E. simpl in E.
    change ("Merge pull request #" +:+ pr +:+ rest)
      with (String "M" ("erge pull request #" +:+ pr +:+ rest)) in E.
    discriminate. }
  split; [exact H|]. exact (githubPRLink_only_at_start _ _ H).
Defined.

(** X25: what [githubPRLink] returns is not rewritten again: applied to
    its own result, it returns that result. *)
Theorem githubPRLink_idempotent repo (c : change) (message : string) :
  githubPRLink repo c = Ok message →
  githubPRLink repo (change.mk (change.Commit c) message) = Ok message.
Proof.
  destruct c as [commit desc]. simpl.
  destruct (regexp.FindMergePR desc) as [n|] eqn:E.
  - destruct (FindMergePR_Some _ _ E) as (pr & rest & -> & Hne & Ha & Hr).
    change regexp.mergePRLiteral with "Merge pull request #".
    rewrite (githubPRLink_match _ _ _ _ Hne Ha Hr). intros [= <-].
    by apply githubPRLink_no_match.
  - rewrite (githubPRLink_no_match repo (change.mk commit desc) E).
    simpl. intros [= <-]. by apply githubPRLink_no_match.
Qed.

Lemma githubPRLink_idempotent_witness :
  githubPRLink "org/proj" (change.mk "0123abc" "Merge pull request #42 from foo/bar")
  = Ok "Merge pull request  [#42](https://github.com/org/proj/pull/42) from foo/bar"
  ∧ githubPRLink "org/proj"
      (change.mk "0123abc"
         "Merge pull request  [#42](https://github.com/org/proj/pull/42) from foo/bar")
    = Ok "Merge pull request  [#42](https://github.com/org/proj/pull/42) from foo/bar".
Proof.
  assert (githubPRLink "org/proj"
            (change.mk "0123abc" "Merge pull request #42 from foo/bar")
  = Ok "Merge pull request  [#42](https://github.com/org/proj/pull/42) from foo/bar")
    as H by reflexivity.
  split; [exact H|]. exact (githubPRLink_idempotent _ _ _ H).
Defined.

End more_links.

(** ** Commit links *)

Section commit_links.

Lemma hex_is_ascii_text c t :
  regexp.isLowerHex c = true →
  utf8.DecodeRuneInString (String c t) = (N_of_ascii c, 1)
  ∧ utf8.DecodeLastRuneRev (String c t) = (N_of_ascii c, 1)
  ∧ unicode.IsSpace (N_of_ascii c) = false.
Proof.
  destruct c as [b0 b1 b2 b3 b4 b5 b6 b7].
  destruct b0, b1, b2, b3, b4, b5, b6, b7; try discriminate;
    intros _; repeat split; reflexivity.
Qed.

Lemma allOf_rev cls s : allOf cls (String.rev s) = allOf cls s.
Proof.
  induction s as [|c s IH]; [done|].
  rewrite rev_cons, allOf_append, IH. simpl. by rewrite andb_true_r, andb_comm.
Qed.

Lemma TrimLeftGo_keeps f c t :
  utf8.DecodeRuneInString (String c t) = (N_of_ascii c, 1) →
  f (N_of_ascii c) = false →
  strings.TrimLeftGo f 0 (String c t) = String c t.
Proof.
  intros Hd Hf.
  change (strings.TrimLeftGo f 0 (String c t))
    with (let '(r, size) := utf8.DecodeRuneInString (String c t) in
          if f r then strings.TrimLeftGo f (size - 1) t else String c t).
  by rewrite Hd, Hf.
Qed.

Lemma TrimRightGo_keeps f c t :
  utf8.DecodeLastRuneRev (String c t) = (N_of_ascii c, 1) →
  f (N_of_ascii c) = false →
  strings.TrimRightGo f 0 (String c t) = String c t.
Proof.
  intros Hd Hf.
  change (strings.TrimRightGo f 0 (String c t))
    with (let '(r, size) := utf8.DecodeLastRuneRev (String c t) in
          if f r then strings.TrimRightGo f (size - 1) t else String c t).
  by rewrite Hd, Hf.
Qed.

(** The line feed that ends the output of git is trimmed off an object
    name. *)
Lemma TrimSpace_hex_line h :
  allOf regexp.isLowerHex h = true → h ≠ EmptyString →
  strings.TrimSpace (h +:+ LF) = h.
Proof.
  intros Hh Hne.
  unfold strings.TrimSpace, strings.TrimLeftFunc, strings.TrimRightFunc.
  destruct h as [|c h']; [done|]. clear Hne.
  pose proof Hh as Hh'. simpl in Hh'. apply andb_true_iff in Hh' as [Hc _].
  destruct (hex_is_ascii_text c (h' +:+ LF) Hc) as (Hd & _ & Hs).
  rewrite append_cons, (TrimLeftGo_keeps _ _ _ Hd Hs), <-append_cons.
  rewrite rev_append.
  change (String.rev LF) with LF. unfold LF. rewrite append_cons, append_nil_l.
  change (strings.TrimRightGo unicode.IsSpace 0
            (String "010" (String.rev (String c h'))))
    with (strings.TrimRightGo unicode.IsSpace 0 (String.rev (String c h'))).
  pose proof (allOf_rev regexp.isLowerHex (String c h')) as Hr. rewrite Hh in Hr.
  destruct (String.rev (String c h')) as [|c' r'] eqn:E.
  { by destruct (rev_nonempty (String c h')). }
  simpl in Hr. apply andb_true_iff in Hr as [Hc' _].
  destruct (hex_is_ascii_text c' r' Hc') as (_ & Hd' & Hs').
  by rewrite (TrimRightGo_keeps _ _ _ Hd' Hs'), <-E, rev_involutive.
Qed.

(** X26: [githubCommitLink] asks git for the full name of the commit
    and, git having printed it on a line, returns
    [https://github.com/<repo>/commit/<name>] without the line feed; when
    git fails it returns git's error.  One command is run either way. *)
Theorem githubCommitLink_link (p : process) (repo : string) (c : change)
    (tr : list (list string)) :
  (∀ h, allOf regexp.isLowerHex h = true → h ≠ EmptyString →
        CombinedOutput p (gitArgsOf p ["rev-parse"; change.Commit c])
        = (h +:+ LF, None) →
        githubCommitLink p repo c tr
        = (Ok ("https://github.com/" +:+ repo +:+ "/commit/" +:+ h),
           tr ++ [gitArgsOf p ["rev-parse"; change.Commit c]]))
  ∧ (∀ e o, CombinedOutput p (gitArgsOf p ["rev-parse"; change.Commit c])
            = (o, Some e) →
            githubCommitLink p repo c tr
            = (Err (ErrGit e o),
               tr ++ [gitArgsOf p ["rev-parse"; change.Commit c]])).
Proof.
  split.
  - intros h Hh Hne Hout. unfold githubCommitLink, exec_bind.
    rewrite git_run, Hout. unfold exec_ret.
    by rewrite (TrimSpace_hex_line _ Hh Hne).
  - intros e o Hout. unfold githubCommitLink, exec_bind.
    by rewrite git_run, Hout.
Qed.

Lemma githubCommitLink_link_witness :
  allOf regexp.isLowerHex "0123456789abcdef0123456789abcdef01234567" = true
  ∧ "0123456789abcdef0123456789abcdef01234567" ≠ EmptyString
  ∧ CombinedOutput exampleHashRepo
      (gitArgsOf exampleHashRepo ["rev-parse"; change.Commit (change.mk "0123456" "Fix")])
    = ("0123456789abcdef0123456789abcdef01234567" +:+ LF, None)
  ∧ githubCommitLink exampleHashRepo "org/proj" (change.mk "0123456" "Fix") []
    = (Ok ("https://github.com/" +:+ "org/proj" +:+ "/commit/"
             +:+ "0123456789abcdef0123456789abcdef01234567"),
       [] ++ [gitArgsOf exampleHashRepo
                ["rev-parse"; change.Commit (change.mk "0123456" "Fix")]]).
Proof.
  assert (allOf regexp.isLowerHex "0123456789abcdef0123456789abcdef01234567" = true)
    as H1 by reflexivity.
  assert ("0123456789abcdef0123456789abcdef01234567" ≠ EmptyString) as H2
    by discriminate.
  assert (CombinedOutput exampleHashRepo
      (gitArgsOf exampleHashRepo ["rev-parse"; change.Commit (change.mk "0123456" "Fix")])
    = ("0123456789abcdef0123456789abcdef01234567" +:+ LF, None)) as H3
    by reflexivity.
  split; [exact H1|]. split; [exact H2|]. split; [exact H3|].
  exact (proj1 (githubCommitLink_link exampleHashRepo "org/proj" _ []) _ H1 H2 H3).
Defined.

(** X27: for functions whose results do not depend on the commands run
    so far, [linkifyChanges] rewrites the changes from the first on and
    stops at the first change for which the first function fails or, the
    first having returned a link, the second fails.  The changes before
    that one are rewritten, [Commit] into [[`<commit>`](<link>)] with
    the link of the first function and [Description] into the result of
    the second; that change and those after it are left as they were, and
    the failure is what the call returns.  When no function fails every
    change is rewritten and the call returns [nil]. *)
Theorem linkifyChanges_outcome (c : list change)
    (commit msg : change → exec (result string))
    (fc fm : change → result string) (tr : list (list string)) :
  (∀ ci tr, (commit ci tr).1 = fc ci) →
  (∀ ci tr, (msg ci tr).1 = fm ci) →
  ∃ before rewritten rest,
    c = before ++ rest
    ∧ (linkifyChanges c commit msg tr).1.2 = rewritten ++ rest
    ∧ Forall2 (linkedFrom fc fm) before rewritten
    ∧ match rest with
      | [] => (linkifyChanges c commit msg tr).1.1 = Ok tt
      | ci :: _ => stopsAt fc fm ci (linkifyChanges c commit msg tr).1.1
      end.
Proof.
  intros Hc Hm. revert tr. induction c as [|ci c IH]; intros tr.
  - exists [], [], []. by repeat split.
  - simpl. unfold exec_bind.
    pose proof (Hc ci tr) as Hci.
    destruct (commit ci tr) as [[commitLink|e|m] tr1]; simpl in Hci.
    + pose proof (Hm ci tr1) as Hmi.
      destruct (msg ci tr1) as [[description|e|m] tr2]; simpl in Hmi.
      * destruct (IH tr2) as (before & rewritten & rest & Hsplit & Hout & HF & Hres).
        destruct (linkifyChanges c commit msg tr2) as [[res out] tr3].
        simpl in *. subst.
        eexists (ci :: before), (_ :: rewritten), rest.
        split; [done|]. split; [done|]. split; [|done].
        constructor; [|done]. by exists commitLink, description.
      * exists [], [], (ci :: c).
        split; [done|]. split; [done|]. split; [constructor|].
        right. split; [by exists commitLink|]. unfold failsWith. by rewrite <-Hmi.
      * exists [], [], (ci :: c).
        split; [done|]. split; [done|]. split; [constructor|].
        right. split; [by exists commitLink|]. unfold failsWith. by rewrite <-Hmi.
    + exists [], [], (ci :: c).
      split; [done|]. split; [done|]. split; [constructor|].
      left. unfold failsWith. by rewrite <-Hci.
    + exists [], [], (ci :: c).
      split; [done|]. split; [done|]. split; [constructor|].
      left. unfold failsWith. by rewrite <-Hci.
Qed.

Lemma exampleCommitLink_result ci tr :
  (exampleCommitLink ci tr).1 = (exampleCommitLink ci []).1.
Proof.
  unfold exampleCommitLink, githubCommitLink, exec_bind. rewrite !git_run.
  by destruct (CombinedOutput exampleMixedRepo _) as [o [e|]].
Qed.

Lemma linkifyChanges_outcome_witness :
  (∀ ci tr, (exampleCommitLink ci tr).1 = (exampleCommitLink ci []).1)
  ∧ (∀ ci tr, (exampleMessage ci tr).1 = githubPRLink "org/proj" ci)
  ∧ (∃ before rewritten rest,
       exampleChanges = before ++ rest
       ∧ (linkifyChanges exampleChanges exampleCommitLink exampleMessage []).1.2
         = rewritten ++ rest
       ∧ Forall2 (linkedFrom (λ ci, (exampleCommitLink ci []).1)
                    (githubPRLink "org/proj")) before rewritten
       ∧ match rest with
         | [] =>
           (linkifyChanges exampleChanges exampleCommitLink exampleMessage []).1.1
           = Ok tt
         | ci :: _ =>
           stopsAt (λ ci, (exampleCommitLink ci []).1) (githubPRLink "org/proj") ci
             (linkifyChanges exampleChanges exampleCommitLink exampleMessage []).1.1
         end)
  ∧ (linkifyChanges exampleChanges exampleCommitLink exampleMessage []).1
    = (Err (ErrGit "exit status 128" "fatal: bad revision"),
       [change.mk
          "[`0123456`](https://github.com/org/proj/commit/0123456789abcdef0123456789abcdef01234567)"
          "Merge pull request  [#42](https://github.com/org/proj/pull/42) from foo/bar";
        change.mk "badc0de" "Fix bug";
        change.mk "89abcde" "Add feature"]).
Proof.
  assert (∀ ci tr, (exampleMessage ci tr).1 = githubPRLink "org/proj" ci) as Hm
    by reflexivity.
  split; [exact exampleCommitLink_result|]. split; [exact Hm|].
  split; [|reflexivity].
  exact (linkifyChanges_outcome exampleChanges exampleCommitLink exampleMessage
           (λ ci, (exampleCommitLink ci []).1) (githubPRLink "org/proj") []
           exampleCommitLink_result Hm).
Defined.

End commit_links.
